(** * The structural value codec of [src/rpc/serializers.ts]

    A shallow embedding of [serializeValue], [parseSerializedValue],
    [serializeError] and [parseError], together with the part of the
    JavaScript object model these functions observe: primitive values,
    heap-allocated objects with identity, and the [Set] of visited
    objects that the encoder threads through its recursion. *)

From Stdlib Require Import ZArith String List Ascii Bool Lia.
From Stdlib Require Import SpecFloat.
From stdpp Require Import base option gmap sets list strings.

Set Warnings "-register-all,-clear-no-such-hyp".
Open Scope string_scope.

(** ** Native values *)

(** A JavaScript number is an IEEE 754 binary64 datum.  [spec_float] has
    one NaN, two zeros and two infinities, so Leibniz equality on it is
    [Object.is]. *)
Definition number := spec_float.

Definition NaN : number := S754_nan.
Definition Infinity : number := S754_infinity false.
Definition neg_Infinity : number := S754_infinity true.
Definition neg_zero : number := S754_zero true.
Definition pos_zero : number := S754_zero false.

Definition number_eqb (x y : number) : bool :=
  match x, y with
  | S754_zero a, S754_zero b => Bool.eqb a b
  | S754_infinity a, S754_infinity b => Bool.eqb a b
  | S754_nan, S754_nan => true
  | S754_finite a m e, S754_finite b m' e' =>
      Bool.eqb a b && Pos.eqb m m' && Z.eqb e e'
  | _, _ => false
  end.

(** Objects live in a heap and are named by their address: two
    references are the same object exactly when the addresses agree. *)
Abbreviation addr := nat.

Inductive value : Type :=
| VUndefined
| VNull
| VBool (b : bool)
| VNumber (x : number)
| VString (s : string)
| VSymbol (id : nat)
| VRef (a : addr).

(** [Object.is(x, y)]. *)
Definition Object_is (x y : value) : bool :=
  match x, y with
  | VUndefined, VUndefined => true
  | VNull, VNull => true
  | VBool a, VBool b => Bool.eqb a b
  | VNumber a, VNumber b => number_eqb a b
  | VString a, VString b => String.eqb a b
  | VSymbol a, VSymbol b => Nat.eqb a b
  | VRef a, VRef b => Nat.eqb a b
  | _, _ => false
  end.

(** The two classes of error object the file distinguishes. *)
Inductive error_class := GenericError | TimeoutErrorClass.

(** What an address can hold.  Arrays are dense; [OObject] lists the own
    enumerable string-keyed data properties in [Object.keys] order; a
    date is its time value ([None] for an invalid date); a regular
    expression is its [source] and [flags]. *)
Inductive obj : Type :=
| OArray (elems : list value)
| OObject (props : list (string * value))
| ODate (tv : option Z)
| ORegExp (source flags : string)
| OError (cls : error_class) (name message : string) (stack : option string)
| OFunction.

Abbreviation heap := (gmap addr obj).

(** ** The host platform

    Built-ins whose results the file only passes along.  [Date.parse] is
    implementation-defined outside the ISO format and regular-expression
    syntax is the engine's business, so both are parameters. *)
Record Platform := {
  (** ['captureStackTrace' in global.Error] *)
  has_captureStackTrace : bool;
  (** [Date.prototype.toISOString] on a valid time value *)
  Date_toISOString : Z -> string;
  (** the time value of [new Date(s)] for a string [s] *)
  Date_parse : string -> option Z;
  (** the [source] and [flags] of [new RegExp(p, f)], or [None] when the
      constructor raises [SyntaxError] *)
  RegExp_construct : string -> string -> option (string * string)
}.

(** ** Outcomes *)

Inductive exn :=
| Error (message : string)
| SyntaxError (message : string).

(** A call returns, throws, or runs out of call stack.  The last case is
    what the recursion depth bound [fuel] of the encoder models. *)
Inductive outcome (A : Type) :=
| Return (x : A)
| Throw (e : exn)
| Exhausted.
Arguments Return {A} x.
Arguments Throw {A} e.
Arguments Exhausted {A}.

Definition is_Return {A} (r : outcome A) : bool :=
  match r with Return _ => true | _ => false end.

(** ** The wire format ([SerializedValue] of [channels.ts])

    One record with optional fields, as on the wire; nothing in the type
    prevents several fields from being set.  Field [sv_x] is the field
    [x] of the source; [None] is [undefined].  The field [d] holds what
    [toJSON] returned, which is a string or [null]. *)
Inductive nullable (A : Type) := JNull | JSome (x : A).
Arguments JNull {A}.
Arguments JSome {A} x.

Inductive SerializedValue : Type := mkSerializedValue {
  sv_n : option number;
  sv_s : option string;
  sv_b : option bool;
  sv_v : option string;
  sv_d : option (nullable string);
  sv_r : option (string * string);
  sv_a : option (list SerializedValue);
  sv_o : option (list (string * SerializedValue));
  sv_h : option Z
}.

Definition empty_sv : SerializedValue :=
  mkSerializedValue None None None None None None None None None.

Definition sv_of_n x := mkSerializedValue (Some x) None None None None None None None None.
Definition sv_of_s x := mkSerializedValue None (Some x) None None None None None None None.
Definition sv_of_b x := mkSerializedValue None None (Some x) None None None None None None.
Definition sv_of_v x := mkSerializedValue None None None (Some x) None None None None None.
Definition sv_of_d x := mkSerializedValue None None None None (Some x) None None None None.
Definition sv_of_r p f := mkSerializedValue None None None None None (Some (p, f)) None None None.
Definition sv_of_a x := mkSerializedValue None None None None None None (Some x) None None.
Definition sv_of_o x := mkSerializedValue None None None None None None None (Some x) None.
Definition sv_of_h x := mkSerializedValue None None None None None None None None (Some x).

(** ** The encoder *)

(** [HandleOrValue]: what the handle resolver answers. *)
Inductive HandleOrValue :=
| Handle (h : Z)
| FallThrough (fallThrough : value).

(** The resolver of [serializeError]: [value => ({ fallThrough: value })]. *)
Definition always_fallThrough (v : value) : HandleOrValue := FallThrough v.

(** The visited set holds object identities. *)
Definition visited_has (visited : gset addr) (v : value) : bool :=
  match v with
  | VRef a => bool_decide (a ∈ visited)
  | _ => false
  end.

(** [isError], [isDate], [isRegExp] and [Array.isArray] are answered by
    the kind of object at the address: [OError] stands for the objects on
    which [isError] holds, [ODate] and [ORegExp] likewise, and [OObject]
    for the remaining objects whose [typeof] is ['object']. *)
Definition isError (h : heap) (v : value) : bool :=
  match v with
  | VRef a => match h !! a with Some (OError _ _ _ _) => true | _ => false end
  | _ => false
  end.

(** [value.toJSON()] on a date: the ISO string, or [null] when the time
    value is not finite. *)
Definition Date_toJSON (P : Platform) (tv : option Z) : nullable string :=
  match tv with
  | Some t => JSome (Date_toISOString P t)
  | None => JNull
  end.

(** The text an error-like object is flattened to. *)
Definition error_text (P : Platform) (name message : string) (stack : option string) : string :=
  if has_captureStackTrace P then
    match stack with Some st => st | None => "" end
  else
    name ++ ": " ++ message ++ String "010"%char
      (match stack with Some st => st | None => "undefined" end).

Definition circular_structure : exn := Error "Argument is a circular structure".
Definition unexpected_value : exn := Error "Unexpected value".
Definition unexpected_handle : exn := Error "Unexpected handle".

(** The body of the two [for] loops: encode the children left to right,
    threading the visited set, and push what [put] makes of each
    encoding; the first child that does not return ends the loop with
    its outcome. *)
Definition serialize_children {A B : Type} (get : A -> value)
    (put : A -> SerializedValue -> B)
    (rec : value -> gset addr -> gset addr * outcome SerializedValue) :
    list A -> gset addr -> gset addr * outcome (list B) :=
  fix loop (children : list A) (visited : gset addr) :=
    match children with
    | [] => (visited, Return [])
    | c :: rest =>
        match rec (get c) visited with
        | (visited1, Return w) =>
            match loop rest visited1 with
            | (visited2, Return ws) => (visited2, Return (put c w :: ws))
            | (visited2, Throw e) => (visited2, Throw e)
            | (visited2, Exhausted) => (visited2, Exhausted)
            end
        | (visited1, Throw e) => (visited1, Throw e)
        | (visited1, Exhausted) => (visited1, Exhausted)
        end
    end.

(** [a.push(w)] and [o.push({ k: name, v: w })]. *)
Definition push_element (c : value) (w : SerializedValue) : SerializedValue := w.
Definition push_entry {A} (c : string * A) (w : SerializedValue) : string * SerializedValue :=
  (fst c, w).

Section Encoder.
Context (P : Platform) (h : heap) (handleSerializer : value -> HandleOrValue).

(** [serializeValue(value, handleSerializer, visited)].  The result
    pairs the visited set as the call leaves it with the call's
    outcome; [fuel] is the number of nested calls the stack admits. *)
Fixpoint serializeValue (fuel : nat) (value : value) (visited : gset addr)
    : gset addr * outcome SerializedValue :=
  match fuel with
  | O => (visited, Exhausted)
  | S fuel =>
    match handleSerializer value with
    | Handle k => (visited, Return (sv_of_h k))          (* return handle *)
    | FallThrough value =>                                (* value = handle.fallThrough *)
      if visited_has visited value then (visited, Throw circular_structure)
      else
        match value with
        | VSymbol _ => (visited, Return (sv_of_v "undefined"))
        | VUndefined => (visited, Return (sv_of_v "undefined"))
        | VNull => (visited, Return (sv_of_v "null"))
        | VNumber x =>
            if number_eqb x NaN then (visited, Return (sv_of_v "NaN"))
            else if number_eqb x Infinity then (visited, Return (sv_of_v "Infinity"))
            else if number_eqb x neg_Infinity then (visited, Return (sv_of_v "-Infinity"))
            else if number_eqb x neg_zero then (visited, Return (sv_of_v "-0"))
            else (visited, Return (sv_of_n x))
        | VBool b => (visited, Return (sv_of_b b))
        | VString s => (visited, Return (sv_of_s s))
        | VRef a =>
              match h !! a with
              | Some (OError _ name message stack) =>
                  (visited, Return (sv_of_s (error_text P name message stack)))
              | Some (ODate tv) => (visited, Return (sv_of_d (Date_toJSON P tv)))
              | Some (ORegExp source flags) => (visited, Return (sv_of_r source flags))
              | Some (OArray elems) =>
                  (* visited.add(value); the loop; visited.delete(value) *)
                  let visited := {[ a ]} ∪ visited in
                  match serialize_children (fun c => c) push_element
                          (serializeValue fuel) elems visited with
                  | (visited, Return ws) =>
                      (visited ∖ {[ a ]}, Return (sv_of_a ws))
                  | (visited, Throw e) => (visited, Throw e)
                  | (visited, Exhausted) => (visited, Exhausted)
                  end
              | Some (OObject props) =>
                  let visited := {[ a ]} ∪ visited in
                  match serialize_children snd push_entry
                          (serializeValue fuel) props visited with
                  | (visited, Return ws) =>
                      (visited ∖ {[ a ]}, Return (sv_of_o ws))
                  | (visited, Throw e) => (visited, Throw e)
                  | (visited, Exhausted) => (visited, Exhausted)
                  end
              | _ =>
                  (* a function, whose typeof is not 'object' *)
                  (visited, Throw unexpected_value)
              end
        end
    end
  end.
End Encoder.

(** ** The decoder *)

(** What the decoder builds: fresh dates, regular expressions, arrays
    and objects over primitives and over objects that exist already (the
    entries of the handle table), which it passes on by reference. *)
Inductive native : Type :=
| NValue (v : value)
| NDate (tv : option Z)
| NRegExp (source flags : string)
| NArray (elems : list native)
| NObject (props : list (string * native)).

(** Own property keys enumerate array indices first, in ascending order,
    then the other strings in creation order.  An array index is the
    canonical decimal form of an integer below [2^32 - 1]. *)
Definition digit_of (c : ascii) : option N :=
  let n := N_of_ascii c in
  if ((48 <=? n) && (n <=? 57))%N then Some (n - 48)%N else None.

Fixpoint digits_value (s : string) (acc : N) : option N :=
  match s with
  | EmptyString => Some acc
  | String c s' =>
      match digit_of c with
      | Some dg => digits_value s' (10 * acc + dg)%N
      | None => None
      end
  end.

Definition array_index (k : string) : option N :=
  match k with
  | EmptyString => None
  | String c rest =>
      if Ascii.eqb c "0"%char then
        match rest with EmptyString => Some 0%N | _ => None end
      else
        match digits_value k 0 with
        | Some i => if (i <? 2 ^ 32 - 1)%N then Some i else None
        | None => None
        end
  end.

Definition key_before (k k' : string) : bool :=
  match array_index k, array_index k' with
  | Some i, Some j => (i <? j)%N
  | Some _, None => true
  | None, _ => false
  end.

Definition has_prop {A} (k : string) (props : list (string * A)) : bool :=
  existsb (fun kv => String.eqb (fst kv) k) props.

Fixpoint replace_prop {A} (k : string) (x : A) (props : list (string * A)) : list (string * A) :=
  match props with
  | [] => []
  | (k', x') :: rest =>
      if String.eqb k' k then (k, x) :: rest else (k', x') :: replace_prop k x rest
  end.

Fixpoint insert_prop {A} (k : string) (x : A) (props : list (string * A)) : list (string * A) :=
  match props with
  | [] => [(k, x)]
  | (k', x') :: rest =>
      if key_before k k' then (k, x) :: (k', x') :: rest
      else (k', x') :: insert_prop k x rest
  end.

(** [result[k] = x] on an object created by [{}].  The key [__proto__]
    reaches the accessor inherited from [Object.prototype] and creates
    no own property (the prototype itself is not part of this model). *)
Definition assign_prop {A} (k : string) (x : A) (props : list (string * A)) : list (string * A) :=
  if String.eqb k "__proto__" then props
  else if has_prop k props then replace_prop k x props
  else insert_prop k x props.

(** [handles[i]]: [undefined] outside the table. *)
Definition handle_at (handles : list value) (i : Z) : value :=
  if (i <? 0)%Z then VUndefined
  else match handles !! Z.to_nat i with
       | Some x => x
       | None => VUndefined
       end.

(** [new Date(d)]: a string is parsed; [null] converts to the number 0. *)
Definition new_Date (P : Platform) (d : nullable string) : native :=
  match d with
  | JSome iso => NDate (Date_parse P iso)
  | JNull => NDate (Some 0%Z)
  end.

Definition new_RegExp (P : Platform) (p f : string) : outcome native :=
  match RegExp_construct P p f with
  | Some (source, flags) => Return (NRegExp source flags)
  | None => Throw (SyntaxError "Invalid regular expression")
  end.

(** [Array.prototype.map] with a callback that may throw. *)
Definition map_outcome {A B} (f : A -> outcome B) : list A -> outcome (list B) :=
  fix loop (l : list A) :=
    match l with
    | [] => Return []
    | x :: rest =>
        match f x with
        | Return y =>
            match loop rest with
            | Return ys => Return (y :: ys)
            | Throw e => Throw e
            | Exhausted => Exhausted
            end
        | Throw e => Throw e
        | Exhausted => Exhausted
        end
    end.

(** The [for ... of value.o] loop, assigning into [result]. *)
Definition assign_all {A B} (f : A -> outcome B) :
    list (string * A) -> list (string * B) -> outcome (list (string * B)) :=
  fix loop (l : list (string * A)) (result : list (string * B)) :=
    match l with
    | [] => Return result
    | (k, x) :: rest =>
        match f x with
        | Return y => loop rest (assign_prop k y result)
        | Throw e => Throw e
        | Exhausted => Exhausted
        end
    end.

(** The literals of the [v] field. *)
Definition special_literal (lit : string) : option value :=
  if String.eqb lit "undefined" then Some VUndefined
  else if String.eqb lit "null" then Some VNull
  else if String.eqb lit "NaN" then Some (VNumber NaN)
  else if String.eqb lit "Infinity" then Some (VNumber Infinity)
  else if String.eqb lit "-Infinity" then Some (VNumber neg_Infinity)
  else if String.eqb lit "-0" then Some (VNumber neg_zero)
  else None.

Section Decoder.
Context (P : Platform) (handles : option (list value)).

(** [parseSerializedValue(value, handles)]; [handles = None] is
    [undefined]. *)
Fixpoint parseSerializedValue (value : SerializedValue) : outcome native :=
  match value with
  | mkSerializedValue n s b v d r a o h =>
    match n with Some x => Return (NValue (VNumber x)) | None =>
    match s with Some x => Return (NValue (VString x)) | None =>
    match b with Some x => Return (NValue (VBool x)) | None =>
    match (match v with Some lit => special_literal lit | None => None end) with
    | Some x => Return (NValue x)
    | None =>
    match d with Some x => Return (new_Date P x) | None =>
    match r with Some (p, f) => new_RegExp P p f | None =>
    match a with
    | Some elems =>
        match map_outcome parseSerializedValue elems with
        | Return xs => Return (NArray xs)
        | Throw e => Throw e
        | Exhausted => Exhausted
        end
    | None =>
    match o with
    | Some entries =>
        match assign_all parseSerializedValue entries [] with
        | Return props => Return (NObject props)
        | Throw e => Throw e
        | Exhausted => Exhausted
        end
    | None =>
    match h with
    | Some i =>
        match handles with
        | None => Throw unexpected_handle
        | Some table => Return (NValue (handle_at table i))
        end
    | None => Throw unexpected_value
    end end end end end end end end end
  end.
End Decoder.

(** ** The error adapter *)

(** [SerializedError] of [channels.ts]; [se_error] and [se_value] are
    its fields [error] and [value]. *)
Record SerializedErrorError := {
  message : string;
  stack : option string;
  name : string
}.

Record SerializedError := {
  se_error : option SerializedErrorError;
  se_value : option SerializedValue
}.

(** Modelled from the spec: [helper.isError] of [src/helper.ts], which is
    not among the sources; the thrown value is "error-like". *)
Definition helper_isError (h : heap) (e : value) : bool := isError h e.

(** The fields [serializeError] reads off an error-like value. *)
Definition error_fields (h : heap) (e : value) : SerializedErrorError :=
  match e with
  | VRef a =>
      match h !! a with
      | Some (OError _ nm msg st) => {| message := msg; stack := st; name := nm |}
      | _ => {| message := ""; stack := None; name := "" |}
      end
  | _ => {| message := ""; stack := None; name := "" |}
  end.

(** [serializeError(e)]; the visited set is a fresh [new Set()], dropped
    when the call ends. *)
Definition serializeError (P : Platform) (h : heap) (fuel : nat) (e : value)
    : outcome SerializedError :=
  if helper_isError h e then
    Return {| se_error := Some (error_fields h e); se_value := None |}
  else
    match snd (serializeValue P h always_fallThrough fuel e ∅) with
    | Return w => Return {| se_error := None; se_value := Some w |}
    | Throw x => Throw x
    | Exhausted => Exhausted
    end.

(** What [parseError] hands back: an error object made on the spot, or
    whatever the generic decoder produced. *)
Inductive parsed_error :=
| PError (cls : error_class) (name message stack : string)
| PValue (x : native).

(** Modelled from the spec: the class [TimeoutError] of [src/errors.ts],
    which is not among the sources; "the timeout-specific error kind",
    identified by its name. *)
Definition new_TimeoutError (msg : string) : error_class * string * string :=
  (TimeoutErrorClass, "TimeoutError", msg).

Definition new_Error (msg : string) : error_class * string * string :=
  (GenericError, "Error", msg).

(** [x || ''] on an optional string. *)
Definition or_empty (x : option string) : string :=
  match x with
  | Some st => st
  | None => ""
  end.

Definition with_stack (e : error_class * string * string) (st : string) : parsed_error :=
  let '(cls, nm, msg) := e in PError cls nm msg st.

Definition parseError (P : Platform) (error : SerializedError) : outcome parsed_error :=
  match se_error error with
  | None =>
      match se_value error with
      | None => Throw (Error "Serialized error must have either an error or a value")
      | Some w =>
          match parseSerializedValue P None w with
          | Return x => Return (PValue x)
          | Throw x => Throw x
          | Exhausted => Exhausted
          end
      end
  | Some err =>
      if String.eqb (name err) "TimeoutError" then
        Return (with_stack (new_TimeoutError (message err)) (or_empty (stack err)))
      else
        Return (with_stack (new_Error (message err)) (or_empty (stack err)))
  end.

(** ** Observing a value *)

(** The structure reachable from a value, read off the heap: what a
    deep comparison of two values looks at.  Objects the codec does not
    take apart (errors, functions) are observed by identity.  [None]
    when the structure is deeper than [fuel], which is always the case
    on a cycle, or when a reference dangles. *)
Fixpoint snapshot (h : heap) (fuel : nat) (v : value) : option native :=
  match fuel with
  | O => None
  | S fuel =>
      match v with
      | VRef a =>
          match h !! a with
          | Some (OArray elems) => NArray <$> mapM (snapshot h fuel) elems
          | Some (OObject props) =>
              NObject <$> mapM (fun kv => pair (fst kv) <$> snapshot h fuel (snd kv)) props
          | Some (ODate tv) => Some (NDate tv)
          | Some (ORegExp source flags) => Some (NRegExp source flags)
          | Some _ => Some (NValue v)
          | None => None
          end
      | _ => Some (NValue v)
      end
  end.

(** Keys as [Object.keys] lists them: no key twice, array indices in
    ascending order before all other keys. *)
Fixpoint own_key_order (keys : list string) : bool :=
  match keys with
  | [] => true
  | k :: rest =>
      forallb (fun k' => negb (String.eqb k' k) && negb (key_before k' k)) rest
      && own_key_order rest
  end.

(** The loop of [serialize_children] without a visited set. *)
Definition encode_children {A B : Type} (get : A -> native)
    (put : A -> SerializedValue -> B) (enc : native -> outcome SerializedValue) :
    list A -> outcome (list B) :=
  fix loop (children : list A) :=
    match children with
    | [] => Return []
    | c :: rest =>
        match enc (get c) with
        | Return w =>
            match loop rest with
            | Return ws => Return (put c w :: ws)
            | Throw e => Throw e
            | Exhausted => Exhausted
            end
        | Throw e => Throw e
        | Exhausted => Exhausted
        end
    end.

(** The encoding of an observed structure, written as a function of the
    structure alone: the cases of [serializeValue] without the resolver,
    the visited set and the stack.  It is the reference the encoder is
    compared with on acyclic input. *)
Fixpoint encode_tree (P : Platform) (h : heap) (t : native) : outcome SerializedValue :=
  match t with
  | NValue (VSymbol _) => Return (sv_of_v "undefined")
  | NValue VUndefined => Return (sv_of_v "undefined")
  | NValue VNull => Return (sv_of_v "null")
  | NValue (VNumber x) =>
      if number_eqb x NaN then Return (sv_of_v "NaN")
      else if number_eqb x Infinity then Return (sv_of_v "Infinity")
      else if number_eqb x neg_Infinity then Return (sv_of_v "-Infinity")
      else if number_eqb x neg_zero then Return (sv_of_v "-0")
      else Return (sv_of_n x)
  | NValue (VBool b) => Return (sv_of_b b)
  | NValue (VString s) => Return (sv_of_s s)
  | NValue (VRef a) =>
      match h !! a with
      | Some (OError _ name message stack) =>
          Return (sv_of_s (error_text P name message stack))
      | _ => Throw unexpected_value
      end
  | NDate tv => Return (sv_of_d (Date_toJSON P tv))
  | NRegExp source flags => Return (sv_of_r source flags)
  | NArray elems =>
      match encode_children (fun c => c) (fun _ w => w) (encode_tree P h) elems with
      | Return ws => Return (sv_of_a ws)
      | Throw e => Throw e
      | Exhausted => Exhausted
      end
  | NObject props =>
      match encode_children snd push_entry (encode_tree P h) props with
      | Return ws => Return (sv_of_o ws)
      | Throw e => Throw e
      | Exhausted => Exhausted
      end
  end.

(** The structures of the round-trip property: no symbol, no object
    kept by identity, every date valid, no own key [__proto__]; and, as
    on any conforming platform, every date and regular expression can be
    rebuilt from the strings it prints as, and keys come in own-key
    order. *)
Fixpoint plain_data (P : Platform) (t : native) : bool :=
  match t with
  | NValue (VSymbol _) => false
  | NValue (VRef _) => false
  | NValue _ => true
  | NDate (Some tv) =>
      bool_decide (Date_parse P (Date_toISOString P tv) = Some tv)
  | NDate None => false
  | NRegExp source flags =>
      bool_decide (RegExp_construct P source flags = Some (source, flags))
  | NArray elems => forallb (plain_data P) elems
  | NObject props =>
      own_key_order (List.map fst props)
      && negb (has_prop "__proto__" props)
      && forallb (fun kv => plain_data P (snd kv)) props
  end.

(** ** A reference platform

    [toISOString] and the parsing of the strings it prints, after
    ECMAScript's date-time string format, over the proleptic Gregorian
    calendar.  Strings in any other form parse to an invalid date here.
    [RegExp] accepts each pattern with a well-formed flag string. *)
Module ReferencePlatform.
Open Scope Z_scope.

Definition msPerDay : Z := 86400000.

(** Year, month and day of a day number counted from 1970-01-01. *)
Definition civil_from_days (z : Z) : Z * Z * Z :=
  let z := z + 719468 in
  let era := z / 146097 in
  let doe := z - era * 146097 in
  let yoe := (doe - doe / 1460 + doe / 36524 - doe / 146096) / 365 in
  let y := yoe + era * 400 in
  let doy := doe - (365 * yoe + yoe / 4 - yoe / 100) in
  let mp := (5 * doy + 2) / 153 in
  let d := doy - (153 * mp + 2) / 5 + 1 in
  let m := if mp <? 10 then mp + 3 else mp - 9 in
  (if m <=? 2 then y + 1 else y, m, d).

Definition days_from_civil (y m d : Z) : Z :=
  let y := if m <=? 2 then y - 1 else y in
  let era := y / 400 in
  let yoe := y - era * 400 in
  let doy := (153 * (if 2 <? m then m - 3 else m + 9) + 2) / 5 + d - 1 in
  let doe := yoe * 365 + yoe / 4 - yoe / 100 + doy in
  era * 146097 + doe - 719468.

Definition digit_char (n : Z) : ascii := ascii_of_N (48 + Z.to_N (n mod 10)).

(** The last [width] decimal digits of [n]. *)
Fixpoint digits (width : nat) (n : Z) : string :=
  match width with
  | O => EmptyString
  | S w => (digits w (n / 10) ++ String (digit_char n) EmptyString)%string
  end.

Definition year_text (y : Z) : string :=
  if (0 <=? y) && (y <=? 9999) then digits 4 y
  else if y <? 0 then ("-" ++ digits 6 (- y))%string
  else ("+" ++ digits 6 y)%string.

Definition toISOString (t : Z) : string :=
  let day := t / msPerDay in
  let ms := t mod msPerDay in
  let '(y, m, d) := civil_from_days day in
  (year_text y ++ "-" ++ digits 2 m ++ "-" ++ digits 2 d ++ "T"
    ++ digits 2 (ms / 3600000) ++ ":" ++ digits 2 (ms / 60000 mod 60) ++ ":"
    ++ digits 2 (ms / 1000 mod 60) ++ "." ++ digits 3 (ms mod 1000) ++ "Z")%string.

(** Read [width] digits off the front of a string. *)
Fixpoint read_digits (width : nat) (acc : Z) (s : string) : option (Z * string) :=
  match width with
  | O => Some (acc, s)
  | S w =>
      match s with
      | String c rest =>
          match digit_of c with
          | Some dg => read_digits w (10 * acc + Z.of_N dg) rest
          | None => None
          end
      | EmptyString => None
      end
  end.

Definition expect (c : ascii) (s : string) : option string :=
  match s with
  | String c' rest => if Ascii.eqb c c' then Some rest else None
  | EmptyString => None
  end.

Definition read_year (s : string) : option (Z * string) :=
  match s with
  | String "-"%char rest =>
      '(y, rest') ← read_digits 6 0 rest;
      if y =? 0 then None else Some (- y, rest')
  | String "+"%char rest => read_digits 6 0 rest
  | _ => read_digits 4 0 s
  end.

Definition parse (s : string) : option Z :=
  '(y, s) ← read_year s;
  s ← expect "-" s;
  '(m, s) ← read_digits 2 0 s;
  s ← expect "-" s;
  '(d, s) ← read_digits 2 0 s;
  s ← expect "T" s;
  '(hh, s) ← read_digits 2 0 s;
  s ← expect ":" s;
  '(mm, s) ← read_digits 2 0 s;
  s ← expect ":" s;
  '(ss, s) ← read_digits 2 0 s;
  s ← expect "." s;
  '(ms, s) ← read_digits 3 0 s;
  s ← expect "Z" s;
  match s with
  | EmptyString =>
      if (1 <=? m) && (m <=? 12) && (1 <=? d) && (d <=? 31)
         && (hh <=? 23) && (mm <=? 59) && (ss <=? 59)
      then
        let t := days_from_civil y m d * msPerDay
                 + hh * 3600000 + mm * 60000 + ss * 1000 + ms in
        if (Z.abs t <=? 8640000000000000) then Some t else None
      else None
  | _ => None
  end.

Fixpoint flags_ok (seen : list ascii) (f : string) : bool :=
  match f with
  | EmptyString => true
  | String c rest =>
      existsb (Ascii.eqb c) ["g"; "i"; "m"; "s"; "u"; "y"]%char
      && negb (existsb (Ascii.eqb c) seen)
      && flags_ok (c :: seen) rest
  end.

Definition construct (p f : string) : option (string * string) :=
  if flags_ok [] f then
    Some (match p with EmptyString => "(?:)"%string | _ => p end, f)
  else None.

Definition platform (v8 : bool) : Platform := {|
  has_captureStackTrace := v8;
  Date_toISOString := toISOString;
  Date_parse := parse;
  RegExp_construct := construct
|}.
End ReferencePlatform.

Definition node : Platform := ReferencePlatform.platform true.

(** ** Predicates and concrete inputs of the statements *)

(** What every call does to the visited set: it never removes what was
    there, and hands the set back unchanged when it returns. *)
Definition keeps_visited {A} (run : gset addr -> gset addr * outcome A) : Prop :=
  forall visited,
    visited ⊆ fst (run visited)
    /\ (is_Return (snd (run visited)) = true -> fst (run visited) = visited).

(** The number 1. *)
Definition one : number := S754_finite false 4503599627370496 (-52).

(** [a = []; a[0] = a]. *)
Definition self_array : heap := {[ 0 := OArray [VRef 0] ]}.

(** [o = {}; o.self = o]. *)
Definition self_object : heap := {[ 0 := OObject [("self", VRef 0)] ]}.

(** [x = { k: 1 }; [x, x]]. *)
Definition shared_pair : heap :=
  <[ 0 := OArray [VRef 1; VRef 1] ]> {[ 1 := OObject [("k", VNumber one)] ]}.

(** Encoding the structure and decoding the result gives the structure
    back. *)
Definition decodes_back (P : Platform) (h : heap) (handles : option (list value))
    (t : native) : Prop :=
  plain_data P t = true ->
  exists w, encode_tree P h t = Return w
            /\ parseSerializedValue P handles w = Return t.

(** The structures made of numbers, strings, booleans, [null],
    [undefined], dates, regular expressions, arrays and plain objects. *)
Fixpoint listed_kinds (t : native) : bool :=
  match t with
  | NValue (VSymbol _) => false
  | NValue (VRef _) => false
  | NValue _ => true
  | NDate _ => true
  | NRegExp _ _ => true
  | NArray elems => forallb listed_kinds elems
  | NObject props => forallb (fun kv => listed_kinds (snd kv)) props
  end.

(** [d = new Date(NaN)], an invalid date. *)
Definition invalid_date : heap := {[ 0 := ODate None ]}.

(** [JSON.parse('{"__proto__": 1}')], a plain object whose own key is
    [__proto__]. *)
Definition proto_keyed : heap := {[ 0 := OObject [("__proto__", VNumber one)] ]}.

(** An outcome that is a return, or a throw allowed by [ok_exn], or an
    exhausted stack where [ok_exhausted] allows it. *)
Definition outcome_in {A} (ok_exn : exn -> Prop) (ok_exhausted : Prop)
    (r : outcome A) : Prop :=
  match r with
  | Return _ => True
  | Throw e => ok_exn e
  | Exhausted => ok_exhausted
  end.

(** Arrays nested [n] deep below an empty one: address [k] holds the
    array whose only element is the array at [k - 1]. *)
Fixpoint nested_arrays (n : nat) : heap :=
  match n with
  | O => {[ 0 := OArray [] ]}
  | S k => <[ S k := OArray [VRef k] ]> (nested_arrays k)
  end.

(** What is observed at address [n] of [nested_arrays], and its encoding. *)
Fixpoint nested_tree (n : nat) : native :=
  match n with
  | O => NArray []
  | S k => NArray [nested_tree k]
  end.

Fixpoint nested_wire (n : nat) : SerializedValue :=
  match n with
  | O => sv_of_a []
  | S k => sv_of_a [nested_wire k]
  end.

(** [x = { f: function () {} }; [x, x]]. *)
Definition shared_function_holder : heap :=
  <[ 0 := OArray [VRef 1; VRef 1] ]>
    (<[ 1 := OObject [("f", VRef 2)] ]> {[ 2 := OFunction ]}).

(** A reference that leads to an object, or a primitive. *)
Definition resolves (h : heap) (x : value) : bool :=
  match x with
  | VRef a => bool_decide (is_Some (h !! a))
  | _ => true
  end.

(** An object that is not a function and whose references resolve. *)
Definition obj_encodable (h : heap) (o : obj) : bool :=
  match o with
  | OFunction => false
  | OArray elems => forallb (resolves h) elems
  | OObject props => forallb (fun kv => resolves h (snd kv)) props
  | _ => true
  end.

(** A heap in which every object is of a kind the encoder accepts and
    every reference leads to an object. *)
Definition encodable_heap (h : heap) : bool :=
  bool_decide (map_Forall (fun _ o => obj_encodable h o = true) h).

(** [a.includes(a)] and its counterpart on property values. *)
Definition holds_itself (h : heap) (a : addr) : bool :=
  match h !! a with
  | Some (OArray elems) => existsb (Object_is (VRef a)) elems
  | Some (OObject props) => existsb (fun kv => Object_is (VRef a) (snd kv)) props
  | _ => false
  end.

(** [a = [function () {}]; a[1] = a]. *)
Definition function_then_self : heap :=
  <[ 0 := OArray [VRef 1; VRef 0] ]> {[ 1 := OFunction ]}.

(** Exactly one of the two branches is populated. *)
Definition exactly_one_branch (payload : SerializedError) : bool :=
  xorb (bool_decide (is_Some (se_error payload)))
       (bool_decide (is_Some (se_value payload))).

(** [throw { cause: new Error('boom') }]. *)
Definition thrown_with_cause : heap :=
  <[ 0 := OObject [("cause", VRef 1)] ]>
    {[ 1 := OError GenericError "Error" "boom" (Some "Error: boom") ]}.

(** [throw new TimeoutError('late')] beside [throw { code: 1 }]. *)
Definition thrown_values : heap :=
  <[ 0 := OError TimeoutErrorClass "TimeoutError" "late" (Some "TimeoutError: late") ]>
    {[ 1 := OObject [("code", VNumber one)] ]}.

(** A resolver that answers with handle 1 for the object at address 5. *)
Definition handle_for_five (v : value) : HandleOrValue :=
  match v with
  | VRef 5 => Handle 1
  | _ => FallThrough v
  end.

(** [[new Date(1604318400123), /a+b/gi, 0]]. *)
Definition dated : heap :=
  <[ 0 := OArray [VRef 1; VRef 2; VNumber pos_zero] ]>
    (<[ 1 := ODate (Some 1604318400123%Z) ]> {[ 2 := ORegExp "a+b" "gi" ]}).

(** [{ a: [1, NaN, -0, 's'], b: undefined }], the example of the
    specification. *)
Definition spec_example : heap :=
  <[ 0 := OObject [("a", VRef 1); ("b", VUndefined)] ]>
    {[ 1 := OArray [VNumber one; VNumber NaN; VNumber neg_zero; VString "s"] ]}.

(** ** Further predicates on wire values and decoded objects *)

(** The numbers a JSON number literal can carry: finite, and not the
    negative zero. *)
Definition json_number (x : number) : bool :=
  match x with
  | S754_finite _ _ _ => true
  | S754_zero false => true
  | _ => false
  end.

Definition count_Some {A} (x : option A) : nat :=
  match x with
  | Some _ => 1
  | None => 0
  end.

(** How many of the nine fields of a wire value are set. *)
Definition fields_set (w : SerializedValue) : nat :=
  count_Some (sv_n w) + count_Some (sv_s w) + count_Some (sv_b w)
  + count_Some (sv_v w) + count_Some (sv_d w) + count_Some (sv_r w)
  + count_Some (sv_a w) + count_Some (sv_o w) + count_Some (sv_h w).

(** A wire tree in which every node has exactly one field set, every
    [n] is a JSON number and every [v] is one of the six literals. *)
Fixpoint single_tagged (w : SerializedValue) : bool :=
  match w with
  | mkSerializedValue n s b v d r a o h =>
      Nat.eqb (fields_set (mkSerializedValue n s b v d r a o h)) 1
      && match n with Some x => json_number x | None => true end
      && match v with
         | Some lit => match special_literal lit with Some _ => true | None => false end
         | None => true
         end
      && match a with Some elems => forallb single_tagged elems | None => true end
      && match o with
         | Some entries => forallb (fun kv => single_tagged (snd kv)) entries
         | None => true
         end
  end.


(** [obj[k]] on own properties. *)
Definition get_prop {A} (k : string) (props : list (string * A)) : option A :=
  snd <$> List.find (fun kv => String.eqb (fst kv) k) props.

(** The last entry of a list of pairs that carries the key [k]. *)
Definition last_entry {A} (k : string) (entries : list (string * A)) : option A :=
  get_prop k (rev entries).

(** ** Headers and environment variables *)

(** [typeof value]. *)
Definition typeof (h : heap) (v : value) : string :=
  match v with
  | VUndefined => "undefined"
  | VNull => "object"
  | VBool _ => "boolean"
  | VNumber _ => "number"
  | VString _ => "string"
  | VSymbol _ => "symbol"
  | VRef a =>
      match h !! a with
      | Some OFunction => "function"
      | _ => "object"
      end
  end.

(** Modelled from the spec: [helper.isString] of [src/helper.ts], which
    is not among the sources; it holds of the values whose [typeof] is
    ['string'] (the heap of this model holds no boxed strings). *)
Definition helper_isString (v : value) : bool :=
  match v with
  | VString _ => true
  | _ => false
  end.

(** The message of the assertion in [headersObjectToArray]. *)
Definition header_not_string (h : heap) (name : string) (v : value) : exn :=
  let quote := String "034"%char EmptyString in
  Error ("Expected value of header " ++ quote ++ name ++ quote
         ++ " to be String, but " ++ quote ++ typeof h v ++ quote ++ " is found.").

(** [headersObjectToArray(headers)].  [headers] lists the properties the
    [for ... in] loop visits, in its order; an array entry [{ name,
    value }] is the pair [(name, value)].  Modelled from the spec:
    [assert] of [src/helper.ts], which is not among the sources, throws
    an [Error] with the given message when its first argument is
    falsy. *)
Fixpoint headersObjectToArray (h : heap) (headers : list (string * value))
    : outcome (list (string * string)) :=
  match headers with
  | [] => Return []
  | (name, v) :: rest =>
      if Object_is v VUndefined then headersObjectToArray h rest
      else
        (* assert(helper.isString(value), ...) *)
        match v with
        | VString s =>
            match headersObjectToArray h rest with
            | Return result => Return ((name, s) :: result)
            | Throw e => Throw e
            | Exhausted => Exhausted
            end
        | _ => Throw (header_not_string h name v)
        end
  end.

(** The loop [for (const { name, value } of list) result[name] = value]
    of [headersArrayToObject] and [envArrayToObject]. *)
Definition assign_each {A} (entries : list (string * A)) : list (string * A) :=
  fold_left (fun result nv => assign_prop (fst nv) (snd nv) result) entries [].

Definition headersArrayToObject (headers : list (string * string)) : list (string * string) :=
  assign_each headers.

Definition envArrayToObject (env : list (string * string)) : list (string * string) :=
  assign_each env.

(** An object of strings seen as an object of values. *)
Definition as_object (props : list (string * string)) : list (string * value) :=
  List.map (fun nv => (fst nv, VString (snd nv))) props.

(** The properties whose value is a string, as pairs of strings. *)
Definition string_props (props : list (string * value)) : list (string * string) :=
  omap (fun nv => match snd nv with VString s => Some (fst nv, s) | _ => None end) props.

(** The first property whose value is neither [undefined] nor a string. *)
Definition first_non_string (props : list (string * value)) : option (string * value) :=
  List.find (fun nv => negb (Object_is (snd nv) VUndefined) && negb (helper_isString (snd nv)))
    props.

(** [String(value)]: fixed by the language on strings, booleans,
    [undefined] and [null]; on numbers, symbols and objects it is the
    platform's number formatting or the object's own conversion, taken
    as the parameter [String_other]. *)
Definition String_ (String_other : heap -> value -> outcome string) (h : heap) (v : value)
    : outcome string :=
  match v with
  | VString s => Return s
  | VBool true => Return "true"
  | VBool false => Return "false"
  | VUndefined => Return "undefined"
  | VNull => Return "null"
  | _ => String_other h v
  end.

(** [envObjectToArray(env)]. *)
Fixpoint envObjectToArray (String_other : heap -> value -> outcome string) (h : heap)
    (env : list (string * value)) : outcome (list (string * string)) :=
  match env with
  | [] => Return []
  | (name, v) :: rest =>
      if Object_is v VUndefined then envObjectToArray String_other h rest
      else
        match String_ String_other h v with
        | Return s =>
            match envObjectToArray String_other h rest with
            | Return result => Return ((name, s) :: result)
            | Throw e => Throw e
            | Exhausted => Exhausted
            end
        | Throw e => Throw e
        | Exhausted => Exhausted
        end
  end.

(** ** Accessibility nodes *)

(** [x === y]. *)
Definition strict_equal (x y : value) : bool :=
  match x, y with
  | VNumber S754_nan, VNumber _ => false
  | VNumber _, VNumber S754_nan => false
  | VNumber (S754_zero _), VNumber (S754_zero _) => true
  | _, _ => Object_is x y
  end.

(** An accessibility node as [axNodeToProtocol] receives it.  The record
    names the properties the two functions read or write; [ax_rest]
    stands for all other properties, which the spread copies.  A
    property that is absent and one that holds [undefined] are not told
    apart, and the order of the keys is not part of the record. *)
Inductive SerializedAXNode : Type := mkSerializedAXNode {
  ax_rest : list (string * value);
  ax_value : value;
  ax_checked : value;
  ax_pressed : value;
  ax_children : option (list SerializedAXNode)
}.

(** The node of the protocol ([AXNode] of [channels.ts]), in the same way. *)
Inductive AXNode : Type := mkAXNode {
  px_rest : list (string * value);
  px_valueNumber : value;
  px_valueString : value;
  px_checked : value;
  px_pressed : value;
  px_children : option (list AXNode)
}.

(** [x === true ? yes : x === false ? no : x]. *)
Definition flag_to_protocol (yes no : string) (x : value) : value :=
  if strict_equal x (VBool true) then VString yes
  else if strict_equal x (VBool false) then VString no
  else x.

(** [x === yes ? true : x === no ? false : x]. *)
Definition flag_from_protocol (yes no : string) (x : value) : value :=
  if strict_equal x (VString yes) then VBool true
  else if strict_equal x (VString no) then VBool false
  else x.

Fixpoint axNodeToProtocol (axNode : SerializedAXNode) : AXNode :=
  match axNode with
  | mkSerializedAXNode rest value checked pressed children =>
      mkAXNode rest
        (* typeof axNode.value === 'number' ? axNode.value : undefined *)
        (match value with VNumber _ => value | _ => VUndefined end)
        (* typeof axNode.value === 'string' ? axNode.value : undefined *)
        (match value with VString _ => value | _ => VUndefined end)
        (flag_to_protocol "checked" "unchecked" checked)
        (flag_to_protocol "pressed" "released" pressed)
        (match children with
         | Some nodes => Some (List.map axNodeToProtocol nodes)
         | None => None
         end)
  end.

Fixpoint axNodeFromProtocol (axNode : AXNode) : SerializedAXNode :=
  match axNode with
  | mkAXNode rest valueNumber valueString checked pressed children =>
      mkSerializedAXNode rest
        (if negb (strict_equal valueNumber VUndefined) then valueNumber else valueString)
        (flag_from_protocol "checked" "unchecked" checked)
        (flag_from_protocol "pressed" "released" pressed)
        (match children with
         | Some nodes => Some (List.map axNodeFromProtocol nodes)
         | None => None
         end)
  end.

Definition is_flag_word (yes no : string) (x : value) : bool :=
  strict_equal x (VString yes) || strict_equal x (VString no).

Definition is_boolean (x : value) : bool :=
  strict_equal x (VBool true) || strict_equal x (VBool false).

(** The nodes [axNodeToProtocol] keeps apart: the value is a number, a
    string or [undefined], and neither flag is already one of its two
    protocol words. *)
Fixpoint ax_distinct (axNode : SerializedAXNode) : bool :=
  match axNode with
  | mkSerializedAXNode rest value checked pressed children =>
      match value with VNumber _ | VString _ | VUndefined => true | _ => false end
      && negb (is_flag_word "checked" "unchecked" checked)
      && negb (is_flag_word "pressed" "released" pressed)
      && match children with
         | Some nodes => forallb ax_distinct nodes
         | None => true
         end
  end.

(** The protocol nodes [axNodeFromProtocol] keeps apart: [valueNumber] is
    a number or [undefined], [valueString] a string or [undefined], not
    both are set, and neither flag is a boolean. *)
Fixpoint protocol_distinct (axNode : AXNode) : bool :=
  match axNode with
  | mkAXNode rest valueNumber valueString checked pressed children =>
      match valueNumber, valueString with
      | VNumber _, VUndefined => true
      | VUndefined, VString _ => true
      | VUndefined, VUndefined => true
      | _, _ => false
      end
      && negb (is_boolean checked)
      && negb (is_boolean pressed)
      && match children with
         | Some nodes => forallb protocol_distinct nodes
         | None => true
         end
  end.

(** A slider of value 3 holding a checked checkbox and a toggle whose
    [pressed] is 'mixed'. *)
Definition checkbox_tree : SerializedAXNode :=
  mkSerializedAXNode [("role", VString "slider")]
    (VNumber (S754_finite false 6755399441055744 (-51))) VUndefined VUndefined
    (Some [mkSerializedAXNode [("role", VString "checkbox"); ("name", VString "ok")]
             (VString "on") (VBool true) VUndefined None;
           mkSerializedAXNode [("role", VString "button")]
             VUndefined VUndefined (VString "mixed") (Some [])]).

(** ** Structures with handles *)

(** The structure of a value the resolver has passed through, with
    [view] giving the structure of each child: defined on the plain data
    of the round trip ([None] on a symbol, an invalid date, an object
    with an own key [__proto__], an error or a function). *)
Definition resolved_view (P : Platform) (h : heap) (view : value -> option native)
    (y : value) : option native :=
  match y with
  | VSymbol _ => None
  | VRef a =>
      match h !! a with
      | Some (OArray elems) => NArray <$> mapM view elems
      | Some (OObject props) =>
          if own_key_order (List.map fst props) && negb (has_prop "__proto__" props)
          then NObject <$> mapM (fun kv => pair (fst kv) <$> view (snd kv)) props
          else None
      | Some (ODate (Some tv)) =>
          if bool_decide (Date_parse P (Date_toISOString P tv) = Some tv)
          then Some (NDate (Some tv)) else None
      | Some (ORegExp source flags) =>
          if bool_decide (RegExp_construct P source flags = Some (source, flags))
          then Some (NRegExp source flags) else None
      | _ => None
      end
  | _ => Some (NValue y)
  end.

(** The structure of a value as the codec carries it with a resolver: a
    value the resolver answers a handle for is kept as it is, by
    reference; any other value is replaced by what the resolver passes
    through and taken apart. *)
Fixpoint handle_view (P : Platform) (h : heap) (handleSerializer : value -> HandleOrValue)
    (fuel : nat) (x : value) : option native :=
  match fuel with
  | O => None
  | S fuel =>
      match handleSerializer x with
      | Handle _ => Some (NValue x)
      | FallThrough y => resolved_view P h (handle_view P h handleSerializer fuel) y
      end
  end.

(** A handle table that holds, at every index the resolver answers, the
    value it answered for. *)
Definition table_matches (handleSerializer : value -> HandleOrValue)
    (table : list value) : Prop :=
  forall x k, handleSerializer x = Handle k ->
    (0 <= k)%Z /\ table !! Z.to_nat k = Some x.

(** [[e, { el: e }]] with [e] an error object the resolver keeps behind
    handle 0. *)
Definition handled_pair : heap :=
  <[ 0 := OArray [VRef 5; VRef 1] ]>
    (<[ 1 := OObject [("el", VRef 5)] ]>
       {[ 5 := OError GenericError "Error" "boom" None ]}).

Definition handle_zero_for_five (v : value) : HandleOrValue :=
  match v with
  | VRef 5 => Handle 0
  | _ => FallThrough v
  end.

(** ** Fulfilled responses and file payloads *)

(** What the two normalisers ask of their host: the file system
    ([fs.readFile], whose promise is fulfilled with the contents or
    rejected), [Buffer.prototype.toString('base64')],
    [Buffer.byteLength], [mime.getType] ([None] is [null]),
    [path.basename], [String.prototype.toLowerCase], and [String] on
    numbers, symbols and objects. *)
Record Host := {
  readFile : string -> outcome (list Byte.byte);
  toString_base64 : list Byte.byte -> string;
  Buffer_byteLength : string -> nat;
  mime_getType : string -> option string;
  path_basename : string -> string;
  toLowerCase : string -> string;
  String_other : heap -> value -> outcome string
}.

(** A string in a condition: the empty string is falsy. *)
Definition truthy_string (s : option string) : option string :=
  match s with
  | Some EmptyString => None
  | other => other
  end.

(** A number in a condition: zero and NaN are falsy. *)
Definition truthy_number (x : option number) : option number :=
  match x with
  | Some (S754_zero _) => None
  | Some S754_nan => None
  | other => other
  end.

(** [String(length)] for the length of a buffer: its decimal digits. *)
Fixpoint decimal_digits (fuel : nat) (n : N) (acc : string) : string :=
  match fuel with
  | O => acc
  | S fuel =>
      let acc := String (ascii_of_N (48 + n mod 10)) acc in
      if (n / 10 =? 0)%N then acc else decimal_digits fuel (n / 10) acc
  end.

Definition String_of_length (n : nat) : string :=
  decimal_digits (S (N.to_nat (N.log2 (N.of_nat n)))) (N.of_nat n) EmptyString.

(** The number 200. *)
Definition two_hundred : number := S754_finite false 7036874417766400 (-45).

Definition octet_stream : string := "application/octet-stream".

(** [mime.getType(path) || 'application/octet-stream']. *)
Definition mime_type_or_default (H : Host) (path : string) : string :=
  match truthy_string (mime_getType H path) with
  | Some type => type
  | None => octet_stream
  end.

(** [types.FulfillResponse & { path?: string }]. *)
Record FulfillParams := {
  fp_status : option number;
  fp_headers : option (list (string * value));
  fp_contentType : option string;
  fp_body : option (string + list Byte.byte);
  fp_path : option string
}.

(** [types.NormalizedFulfillResponse]. *)
Record NormalizedFulfillResponse := {
  nf_status : number;
  nf_headers : list (string * string);
  nf_body : string;
  nf_isBase64 : bool
}.

(** The first part of [normalizeFulfillParameters]: [body], [isBase64]
    and [length]. *)
Definition fulfill_body (H : Host) (params : FulfillParams)
    : outcome (string * bool * nat) :=
  match truthy_string (fp_path params) with
  | Some path =>
      match readFile H path with
      | Return buffer => Return (toString_base64 H buffer, true, length buffer)
      | Throw e => Throw e
      | Exhausted => Exhausted
      end
  | None =>
      match fp_body params with
      | Some (inl body) => Return (body, false, Buffer_byteLength H body)
      | Some (inr buffer) => Return (toString_base64 H buffer, true, length buffer)
      | None => Return (EmptyString, false, 0)
      end
  end.

(** The loop [headers[header.toLowerCase()] = String(params.headers[header])]. *)
Fixpoint lowercase_headers (H : Host) (h : heap) (given : list (string * value))
    (headers : list (string * string)) : outcome (list (string * string)) :=
  match given with
  | [] => Return headers
  | (header, v) :: rest =>
      match String_ (String_other H) h v with
      | Return s => lowercase_headers H h rest (assign_prop (toLowerCase H header) s headers)
      | Throw e => Throw e
      | Exhausted => Exhausted
      end
  end.

(** The three header assignments that follow the loop. *)
Definition with_content_type (H : Host) (params : FulfillParams)
    (headers : list (string * string)) : list (string * string) :=
  match truthy_string (fp_contentType params) with
  | Some contentType => assign_prop "content-type" contentType headers
  | None =>
      match truthy_string (fp_path params) with
      | Some path => assign_prop "content-type" (mime_type_or_default H path) headers
      | None => headers
      end
  end.

Definition with_content_length (length : nat) (headers : list (string * string))
    : list (string * string) :=
  if negb (Nat.eqb length 0) && negb (has_prop "content-length" headers)
  then assign_prop "content-length" (String_of_length length) headers
  else headers.

(** [normalizeFulfillParameters(params)]; the outcome is that of the
    promise. *)
Definition normalizeFulfillParameters (H : Host) (h : heap) (params : FulfillParams)
    : outcome NormalizedFulfillResponse :=
  match fulfill_body H params with
  | Return (body, isBase64, length) =>
      match lowercase_headers H h
              (match fp_headers params with Some given => given | None => [] end) [] with
      | Return headers =>
          let headers := with_content_type H params headers in
          let headers := with_content_length length headers in
          match headersObjectToArray h (as_object headers) with
          | Return array =>
              Return {| nf_status := match truthy_number (fp_status params) with
                                     | Some status => status
                                     | None => two_hundred
                                     end;
                        nf_headers := array;
                        nf_body := body;
                        nf_isBase64 := isBase64 |}
          | Throw e => Throw e
          | Exhausted => Exhausted
          end
      | Throw e => Throw e
      | Exhausted => Exhausted
      end
  | Throw e => Throw e
  | Exhausted => Exhausted
  end.

(** [types.FilePayload]. *)
Record FilePayload := {
  fl_name : string;
  fl_mimeType : string;
  fl_buffer : list Byte.byte
}.

(** [normalizeFilePayloads(files)]: an item is a path ([inl]) or a
    payload ([inr]); [files] is one item ([inl]) or an array of them
    ([inr]). *)
Fixpoint normalize_items (H : Host) (ff : list (string + FilePayload))
    : outcome (list FilePayload) :=
  match ff with
  | [] => Return []
  | item :: rest =>
      match (match item with
             | inl path =>
                 match readFile H path with
                 | Return buffer =>
                     Return {| fl_name := path_basename H path;
                               fl_mimeType := mime_type_or_default H path;
                               fl_buffer := buffer |}
                 | Throw e => Throw e
                 | Exhausted => Exhausted
                 end
             | inr file => Return file
             end) with
      | Return file =>
          match normalize_items H rest with
          | Return filePayloads => Return (file :: filePayloads)
          | Throw e => Throw e
          | Exhausted => Exhausted
          end
      | Throw e => Throw e
      | Exhausted => Exhausted
      end
  end.

Definition normalizeFilePayloads (H : Host)
    (files : (string + FilePayload) + list (string + FilePayload))
    : outcome (list FilePayload) :=
  normalize_items H (match files with inl item => [item] | inr items => items end).

(** A host for concrete runs: one file, the lower-casing of ASCII
    letters, the length in bytes of ASCII text, and base64. *)
Definition base64_char (n : N) : ascii :=
  if (n <? 26)%N then ascii_of_N (65 + n)
  else if (n <? 52)%N then ascii_of_N (97 + (n - 26))
  else if (n <? 62)%N then ascii_of_N (48 + (n - 52))
  else if (n =? 62)%N then "+"%char else "/"%char.

Fixpoint base64_of (bytes : list N) : string :=
  match bytes with
  | [] => EmptyString
  | [a] =>
      let n := (a * 65536)%N in
      String (base64_char (n / 262144)) (String (base64_char (n / 4096 mod 64)) "==")
  | [a; b] =>
      let n := (a * 65536 + b * 256)%N in
      String (base64_char (n / 262144)) (String (base64_char (n / 4096 mod 64))
        (String (base64_char (n / 64 mod 64)) "="))
  | a :: b :: c :: rest =>
      let n := (a * 65536 + b * 256 + c)%N in
      String (base64_char (n / 262144)) (String (base64_char (n / 4096 mod 64))
        (String (base64_char (n / 64 mod 64)) (String (base64_char (n mod 64))
          (base64_of rest))))
  end.

Definition lower_ascii (c : ascii) : ascii :=
  let n := N_of_ascii c in
  if ((65 <=? n) && (n <=? 90))%N then ascii_of_N (n + 32) else c.

Fixpoint lower_string (s : string) : string :=
  match s with
  | EmptyString => EmptyString
  | String c rest => String (lower_ascii c) (lower_string rest)
  end.

Definition test_host : Host := {|
  readFile := fun path =>
    if String.eqb path "/tmp/a.png" then Return [Byte.x89; Byte.x50; Byte.x4e; Byte.x47]
    else Throw (Error "ENOENT");
  toString_base64 := fun buffer =>
    base64_of (List.map (fun b => N_of_ascii (ascii_of_byte b)) buffer);
  Buffer_byteLength := String.length;
  mime_getType := fun path =>
    if String.eqb path "/tmp/a.png" then Some "image/png" else None;
  path_basename := fun path => if String.eqb path "/tmp/a.png" then "a.png" else path;
  toLowerCase := lower_string;
  String_other := fun _ _ => Throw (Error "not converted")
|}.

(** The last of the given headers whose lower-cased name is [k]. *)
Definition last_given (H : Host) (k : string) (given : list (string * value))
    : option (string * value) :=
  List.find (fun nv => String.eqb (toLowerCase H (fst nv)) k) (rev given).

(** The headers given to [normalizeFulfillParameters]: [params.headers || {}]. *)
Definition given_headers (params : FulfillParams) : list (string * value) :=
  match fp_headers params with
  | Some given => given
  | None => []
  end.

(** ** Induction over wire trees and observed structures *)

Section SerializedValue_induction.
Variable Q : SerializedValue -> Prop.
Hypothesis step : forall n s b v d r a o h,
  (forall elems, a = Some elems -> Forall Q elems) ->
  (forall entries, o = Some entries -> Forall (fun kv => Q (snd kv)) entries) ->
  Q (mkSerializedValue n s b v d r a o h).

Fixpoint SerializedValue_nested_ind (w : SerializedValue) : Q w :=
  match w with
  | mkSerializedValue n s b v d r a o h =>
      step n s b v d r a o h
        (fun elems (E : a = Some elems) =>
           match a as a0 return a0 = Some elems -> Forall Q elems with
           | Some l => fun E0 =>
               eq_ind l (Forall Q)
                 ((fix all (l : list SerializedValue) : Forall Q l :=
                     match l with
                     | [] => @List.Forall_nil _ Q
                     | x :: l' => @List.Forall_cons _ Q x l' (SerializedValue_nested_ind x) (all l')
                     end) l) elems (Some_inj _ _ E0)
           | None => fun E0 => match None_ne_Some _ E0 with end
           end E)
        (fun entries (E : o = Some entries) =>
           match o as o0 return o0 = Some entries -> Forall (fun kv => Q (snd kv)) entries with
           | Some l => fun E0 =>
               eq_ind l (Forall (fun kv => Q (snd kv)))
                 ((fix all (l : list (string * SerializedValue))
                     : Forall (fun kv => Q (snd kv)) l :=
                     match l with
                     | [] => @List.Forall_nil _ _
                     | x :: l' =>
                         @List.Forall_cons _ (fun kv => Q (snd kv)) x l'
                           (SerializedValue_nested_ind (snd x)) (all l')
                     end) l) entries (Some_inj _ _ E0)
           | None => fun E0 => match None_ne_Some _ E0 with end
           end E)
  end.
End SerializedValue_induction.

Section native_induction.
Variable Q : native -> Prop.
Hypothesis on_value : forall v, Q (NValue v).
Hypothesis on_date : forall tv, Q (NDate tv).
Hypothesis on_regexp : forall source flags, Q (NRegExp source flags).
Hypothesis on_array : forall elems, Forall Q elems -> Q (NArray elems).
Hypothesis on_object : forall props,
  Forall (fun kv => Q (snd kv)) props -> Q (NObject props).

Fixpoint native_nested_ind (t : native) : Q t :=
  match t with
  | NValue v => on_value v
  | NDate tv => on_date tv
  | NRegExp source flags => on_regexp source flags
  | NArray elems =>
      on_array elems
        ((fix all (l : list native) : Forall Q l :=
            match l with
            | [] => @List.Forall_nil _ Q
            | x :: l' => @List.Forall_cons _ Q x l' (native_nested_ind x) (all l')
            end) elems)
  | NObject props =>
      on_object props
        ((fix all (l : list (string * native)) : Forall (fun kv => Q (snd kv)) l :=
            match l with
            | [] => @List.Forall_nil _ _
            | x :: l' =>
                @List.Forall_cons _ (fun kv => Q (snd kv)) x l'
                  (native_nested_ind (snd x)) (all l')
            end) props)
  end.
End native_induction.

Section SerializedAXNode_induction.
Variable Q : SerializedAXNode -> Prop.
Hypothesis step : forall rest value checked pressed children,
  (forall nodes, children = Some nodes -> Forall Q nodes) ->
  Q (mkSerializedAXNode rest value checked pressed children).

Fixpoint SerializedAXNode_nested_ind (axNode : SerializedAXNode) : Q axNode :=
  match axNode with
  | mkSerializedAXNode rest value checked pressed children =>
      step rest value checked pressed children
        (fun nodes (E : children = Some nodes) =>
           match children as c return c = Some nodes -> Forall Q nodes with
           | Some l => fun E0 =>
               eq_ind l (Forall Q)
                 ((fix all (l : list SerializedAXNode) : Forall Q l :=
                     match l with
                     | [] => @List.Forall_nil _ Q
                     | x :: l' =>
                         @List.Forall_cons _ Q x l' (SerializedAXNode_nested_ind x) (all l')
                     end) l) nodes (Some_inj _ _ E0)
           | None => fun E0 => match None_ne_Some _ E0 with end
           end E)
  end.
End SerializedAXNode_induction.

Section AXNode_induction.
Variable Q : AXNode -> Prop.
Hypothesis step : forall rest valueNumber valueString checked pressed children,
  (forall nodes, children = Some nodes -> Forall Q nodes) ->
  Q (mkAXNode rest valueNumber valueString checked pressed children).

Fixpoint AXNode_nested_ind (axNode : AXNode) : Q axNode :=
  match axNode with
  | mkAXNode rest valueNumber valueString checked pressed children =>
      step rest valueNumber valueString checked pressed children
        (fun nodes (E : children = Some nodes) =>
           match children as c return c = Some nodes -> Forall Q nodes with
           | Some l => fun E0 =>
               eq_ind l (Forall Q)
                 ((fix all (l : list AXNode) : Forall Q l :=
                     match l with
                     | [] => @List.Forall_nil _ Q
                     | x :: l' => @List.Forall_cons _ Q x l' (AXNode_nested_ind x) (all l')
                     end) l) nodes (Some_inj _ _ E0)
           | None => fun E0 => match None_ne_Some _ E0 with end
           end E)
  end.
End AXNode_induction.

(** * Properties *)

(** ** Outcomes of the two decoder loops *)

Lemma map_outcome_Throw {A B} (f : A -> outcome B) (l : list A) (e : exn) :
  map_outcome f l = Throw e -> Exists (fun x => f x = Throw e) l.
Proof.
  induction l as [|x l IH]; simpl; [discriminate|].
  destruct (f x) eqn:Ex; try discriminate.
  - destruct (map_outcome f l); try discriminate.
    intros [= <-]. apply Exists_cons_tl, IH. reflexivity.
  - intros [= <-]. apply Exists_cons_hd. assumption.
Qed.

Lemma assign_all_Throw {A B} (f : A -> outcome B) (l : list (string * A)) acc (e : exn) :
  assign_all f l acc = Throw e -> Exists (fun kv => f (snd kv) = Throw e) l.
Proof.
  revert acc. induction l as [|[k x] l IH]; simpl; intros acc; [discriminate|].
  destruct (f x) eqn:Ex; try discriminate.
  - intros E. apply Exists_cons_tl. eapply IH, E.
  - intros [= <-]. apply Exists_cons_hd. assumption.
Qed.

Lemma parse_with_table_no_unexpected_handle (P : Platform) (table : list value)
    (w : SerializedValue) :
  parseSerializedValue P (Some table) w <> Throw unexpected_handle.
Proof.
  induction w as [n s b v d r a o h IHa IHo] using SerializedValue_nested_ind.
  simpl.
  destruct n; [discriminate|]. destruct s; [discriminate|].
  destruct b; [discriminate|].
  destruct (match v with Some lit => special_literal lit | None => None end);
    [discriminate|].
  destruct d; [discriminate|].
  destruct r as [[p f]|].
  { unfold new_RegExp. destruct (RegExp_construct P p f) as [[? ?]|]; discriminate. }
  destruct a as [elems|].
  { specialize (IHa elems eq_refl).
    destruct (map_outcome _ elems) eqn:E; try discriminate.
    intros [= ->]. apply map_outcome_Throw in E.
    rewrite Forall_forall in IHa. rewrite Exists_exists in E.
    destruct E as (x & Hin & Hx). exact (IHa x Hin Hx). }
  destruct o as [entries|].
  { specialize (IHo entries eq_refl).
    destruct (assign_all _ entries []) eqn:E; try discriminate.
    intros [= ->]. apply assign_all_Throw in E.
    rewrite Forall_forall in IHo. rewrite Exists_exists in E.
    destruct E as (x & Hin & Hx). exact (IHo x Hin Hx). }
  destruct h; discriminate.
Qed.

(** ** Handles *)

(** C4.  When the resolver answers with a handle index [k], one call
    frame suffices and the result is exactly [{h: k}], whatever the heap
    holds at the value and whatever the visited set is, which is left as
    it was; when the resolver passes a substitute through, the substitute
    is what gets encoded.  Decoding [{h: k}] against a table longer than
    [k] returns the table's [k]-th entry, and without a table fails with
    'Unexpected handle'. *)
Theorem handle_indirection (P : Platform) (h : heap)
    (handleSerializer : value -> HandleOrValue) (fuel : nat) (x : value)
    (visited : gset addr) (k : Z) (table : list value) (entry : value) :
  handleSerializer x = Handle k ->
  (0 <= k)%Z ->
  table !! Z.to_nat k = Some entry ->
  (forall h', serializeValue P h' handleSerializer (S fuel) x visited
              = (visited, Return (sv_of_h k)))
  /\ (forall value0 substitute,
        handleSerializer value0 = FallThrough substitute ->
        handleSerializer substitute = FallThrough substitute ->
        serializeValue P h handleSerializer (S fuel) value0 visited
        = serializeValue P h handleSerializer (S fuel) substitute visited)
  /\ parseSerializedValue P (Some table) (sv_of_h k) = Return (NValue entry)
  /\ parseSerializedValue P None (sv_of_h k) = Throw unexpected_handle.
Proof.
  intros Hk Hpos Hentry. split; [|split; [|split]].
  - intros h'. simpl. rewrite Hk. reflexivity.
  - intros value0 substitute H0 H1. simpl. rewrite H0, H1. reflexivity.
  - simpl. unfold handle_at.
    destruct (Z.ltb_spec k 0); [lia|]. rewrite Hentry. reflexivity.
  - reflexivity.
Qed.

(** C9.  Against a table that is supplied but has no entry at [k], the
    handle tag decodes to [undefined] without any error; 'Unexpected
    handle' is never the outcome when a table is supplied. *)
Theorem handle_out_of_bounds (P : Platform) (table : list value) (k : Z) :
  (Z.of_nat (length table) <= k)%Z ->
  parseSerializedValue P (Some table) (sv_of_h k) = Return (NValue VUndefined)
  /\ (forall handles w,
        parseSerializedValue P handles w = Throw unexpected_handle ->
        handles = None).
Proof.
  intros Hlen. split.
  - simpl. unfold handle_at.
    destruct (Z.ltb_spec k 0); [reflexivity|].
    rewrite (proj2 (lookup_ge_None table (Z.to_nat k))) by lia. reflexivity.
  - intros [table'|] w Hw; [|reflexivity].
    exfalso. exact (parse_with_table_no_unexpected_handle P table' w Hw).
Qed.

(** ** Malformed wire values *)

(** C6.  A wire value with none of [n], [s], [b], [d], [r], [a], [o],
    [h] set, and [v] absent or not one of the six literals, is rejected
    with 'Unexpected value'. *)
Theorem malformed_rejected (P : Platform) (handles : option (list value))
    (w : SerializedValue) :
  sv_n w = None -> sv_s w = None -> sv_b w = None ->
  (forall lit, sv_v w = Some lit -> special_literal lit = None) ->
  sv_d w = None -> sv_r w = None -> sv_a w = None -> sv_o w = None ->
  sv_h w = None ->
  parseSerializedValue P handles w = Throw unexpected_value.
Proof.
  destruct w as [n s b v d r a o h]. simpl.
  intros -> -> -> Hv -> -> -> -> ->.
  destruct v as [lit|]; [rewrite (Hv lit eq_refl)|]; reflexivity.
Qed.

(** ** Error payloads carrying both branches *)

(** C10.  When the error branch is present, [parseError] builds the
    error from it alone: the outcome is the same whatever the value
    branch holds, including nothing. *)
Theorem parseError_prefers_error (P : Platform) (err : SerializedErrorError)
    (w : SerializedValue) :
  parseError P {| se_error := Some err; se_value := Some w |}
  = Return (if String.eqb (name err) "TimeoutError"
            then PError TimeoutErrorClass "TimeoutError" (message err) (or_empty (stack err))
            else PError GenericError "Error" (message err) (or_empty (stack err)))
  /\ parseError P {| se_error := Some err; se_value := Some w |}
     = parseError P {| se_error := Some err; se_value := None |}.
Proof.
  unfold parseError. simpl. destruct (String.eqb (name err) "TimeoutError"); split; reflexivity.
Qed.

(** ** The visited set *)

Lemma number_eqb_eq (x y : number) : number_eqb x y = true <-> x = y.
Proof.
  destruct x as [a|a| |a m e], y as [b|b| |b m' e']; simpl;
    try (split; [discriminate|congruence]); try (split; reflexivity).
  - rewrite Bool.eqb_true_iff. split; congruence.
  - rewrite Bool.eqb_true_iff. split; congruence.
  - rewrite !andb_true_iff, Bool.eqb_true_iff, Pos.eqb_eq, Z.eqb_eq.
    split; [intros [[-> ->] ->]; reflexivity | intros [= -> -> ->]; auto].
Qed.

Lemma serialize_children_keeps_visited {A B} (get : A -> value)
    (put : A -> SerializedValue -> B) rec (children : list A) :
  (forall c, keeps_visited (rec c)) ->
  keeps_visited (serialize_children get put rec children).
Proof.
  intros Hrec. induction children as [|c rest IH]; intros visited; simpl.
  - split; [set_solver|reflexivity].
  - destruct (Hrec (get c) visited) as [Hsub Hret].
    destruct (rec (get c) visited) as [visited1 [w|e|]]; simpl in *;
      try (split; [assumption|discriminate]).
    specialize (Hret eq_refl). subst visited1.
    destruct (IH visited) as [Hsub' Hret'].
    destruct (serialize_children get put rec rest visited) as [visited2 [ws|e|]];
      simpl in *; split; try assumption; discriminate.
Qed.

Lemma serializeValue_keeps_visited (P : Platform) (h : heap)
    (handleSerializer : value -> HandleOrValue) (fuel : nat) (x : value) :
  keeps_visited (serializeValue P h handleSerializer fuel x).
Proof.
  revert x. induction fuel as [|fuel IH]; intros x visited; simpl.
  - split; [set_solver|discriminate].
  - destruct (handleSerializer x) as [k|y]; [split; [set_solver|reflexivity]|].
    destruct (visited_has visited y) eqn:Hhas; [split; [set_solver|discriminate]|].
    destruct y as [| |b|n|s|id|a]; try (split; [set_solver|reflexivity]).
    + repeat match goal with |- context [if ?c then _ else _] => destruct c end;
        (split; [set_solver|reflexivity]).
    + simpl in Hhas. apply bool_decide_eq_false in Hhas.
      destruct (h !! a) as [[elems|props|tv|source flags|cls nm msg st|]|];
        try (split; [set_solver|first [reflexivity|discriminate]]).
      * destruct (serialize_children_keeps_visited (fun c => c) push_element
                    (serializeValue P h handleSerializer fuel) elems IH ({[a]} ∪ visited))
          as [Hsub Hret].
        destruct (serialize_children _ _ _ elems _) as [visited' [ws|e|]];
          simpl in *; try (split; [set_solver|discriminate]).
        specialize (Hret eq_refl). subst visited'. split; [set_solver|intros _; set_solver].
      * destruct (serialize_children_keeps_visited snd push_entry
                    (serializeValue P h handleSerializer fuel) props IH ({[a]} ∪ visited))
          as [Hsub Hret].
        destruct (serialize_children _ _ _ props _) as [visited' [ws|e|]];
          simpl in *; try (split; [set_solver|discriminate]).
        specialize (Hret eq_refl). subst visited'. split; [set_solver|intros _; set_solver].
Qed.

(** C2, as stated, fails on the throwing path: the self-referential
    array is still in the visited set when the top-level call has raised
    the circular-structure error. *)
Lemma visited_not_unwound_on_throw :
  serializeValue node self_array always_fallThrough 2 (VRef 0) ∅
  = ({[ 0 ]}, Throw circular_structure)
  /\ ~ (forall (P : Platform) (h : heap) (hs : value -> HandleOrValue)
          (fuel : nat) (x : value),
          fst (serializeValue P h hs fuel x ∅) = ∅).
Proof.
  assert (E : serializeValue node self_array always_fallThrough 2 (VRef 0) ∅
              = ({[ 0 ]}, Throw circular_structure)) by (vm_compute; reflexivity).
  split; [exact E|].
  intros H. specialize (H node self_array always_fallThrough 2 (VRef 0)).
  rewrite E in H. simpl in H.
  assert (Hin : 0 ∈ ({[ 0 ]} : gset addr)) by set_solver.
  rewrite H in Hin. set_solver.
Qed.

(** C2, amended.  A call that returns hands the visited set back exactly
    as it received it, so a set that is empty before a top-level call is
    empty after every top-level call that returns; a call that ends any
    other way removes nothing from the set it received. *)
Theorem visited_restored_on_return (P : Platform) (h : heap)
    (handleSerializer : value -> HandleOrValue) (fuel : nat) (x : value)
    (visited visited' : gset addr) (r : outcome SerializedValue) :
  serializeValue P h handleSerializer fuel x visited = (visited', r) ->
  visited ⊆ visited' /\ (is_Return r = true -> visited' = visited).
Proof.
  intros E.
  destruct (serializeValue_keeps_visited P h handleSerializer fuel x visited) as [Hsub Hret].
  rewrite E in Hsub, Hret. simpl in *. split; assumption.
Qed.

Lemma visited_restored_on_return_witness :
  (∅ : gset addr) ⊆ ∅
  /\ (is_Return (Return (sv_of_a [sv_of_o [("k", sv_of_n one)];
                                 sv_of_o [("k", sv_of_n one)]])) = true ->
      (∅ : gset addr) = ∅).
Proof.
  apply (visited_restored_on_return node shared_pair always_fallThrough 3 (VRef 0) ∅ ∅).
  vm_compute. reflexivity.
Defined.

(** ** Acyclic input *)

Lemma snapshot_mono (h : heap) (n m : nat) (x : value) (t : native) :
  snapshot h n x = Some t -> n <= m -> snapshot h m x = Some t.
Proof.
  revert m x t. induction n as [|n IH]; intros m x t; simpl; [discriminate|].
  intros Hs Hle. destruct m as [|m]; [lia|]. simpl.
  assert (Hnm : n <= m) by lia.
  destruct x as [| |b|y|s|id|a]; try exact Hs.
  destruct (h !! a) as [[elems|props|tv|source flags|cls nm msg st|]|]; try exact Hs.
  - apply fmap_Some in Hs as (ts & Hts & ->). apply fmap_Some. exists ts. split; [|reflexivity].
    apply mapM_Some in Hts. apply mapM_Some.
    eapply Forall2_impl; [exact Hts|]. intros c t Hc. simpl in Hc. apply IH; assumption.
  - apply fmap_Some in Hs as (ts & Hts & ->). apply fmap_Some. exists ts. split; [|reflexivity].
    apply mapM_Some in Hts. apply mapM_Some.
    eapply Forall2_impl; [exact Hts|]. intros [k c] kt Hc. simpl in *.
    apply fmap_Some in Hc as (t & Ht & ->). apply fmap_Some. exists t.
    split; [apply IH; assumption|reflexivity].
Qed.

Lemma serialize_children_acyclic {A B A'} (get : A -> value)
    (put : A -> SerializedValue -> B) (get' : A' -> native)
    (put' : A' -> SerializedValue -> B) rec enc
    (children : list A) (trees : list A') (visited : gset addr) :
  (forall c, keeps_visited (rec c)) ->
  Forall2 (fun c t => snd (rec (get c) visited) = enc (get' t)
                      /\ forall w, put c w = put' t w) children trees ->
  snd (serialize_children get put rec children visited)
  = encode_children get' put' enc trees.
Proof.
  intros Hkeep Hall. induction Hall as [|c t children trees [Hc Hput] _ IH]; simpl.
  - reflexivity.
  - destruct (Hkeep (get c) visited) as [_ Hret]. rewrite <- Hc.
    destruct (rec (get c) visited) as [visited1 [w|e|]]; simpl in *; try reflexivity.
    rewrite (Hret eq_refl). rewrite <- IH.
    destruct (serialize_children get put rec children visited) as [visited2 [ws|e|]];
      simpl; try reflexivity.
    rewrite Hput. reflexivity.
Qed.

Section Acyclic.
Context (P : Platform) (h : heap) (handleSerializer : value -> HandleOrValue).
Hypothesis pass_through : forall x, handleSerializer x = FallThrough x.

(** On acyclic input whose ancestors in the visited set all lie on
    deeper structure, the encoder computes [encode_tree] of the
    observed structure as soon as the stack covers the depth. *)
Lemma serialize_acyclic (n : nat) :
  forall (x : value) (t : native) (visited : gset addr) (fuel : nat),
    snapshot h n x = Some t ->
    (forall a, a ∈ visited -> snapshot h n (VRef a) = None) ->
    n <= fuel ->
    snd (serializeValue P h handleSerializer fuel x visited) = encode_tree P h t.
Proof.
  induction n as [|n IH]; intros x t visited fuel Hs Hvis Hfuel; [discriminate|].
  destruct (snapshot h n x) as [t'|] eqn:Hprev.
  { (* the structure is shallower than [S n] *)
    pose proof (snapshot_mono h n (S n) x t' Hprev ltac:(lia)) as Hs'.
    rewrite Hs in Hs'. injection Hs' as <-.
    apply (IH x t visited fuel Hprev); [|lia].
    intros a Ha. specialize (Hvis a Ha).
    destruct (snapshot h n (VRef a)) as [u|] eqn:Hu; [|reflexivity].
    rewrite (snapshot_mono h n (S n) (VRef a) u Hu ltac:(lia)) in Hvis. discriminate. }
  destruct fuel as [|fuel]; [lia|].
  assert (Hfuel' : n <= fuel) by lia.
  assert (Hvis' : forall a, a ∈ visited -> snapshot h n (VRef a) = None).
  { intros a Ha. specialize (Hvis a Ha).
    destruct (snapshot h n (VRef a)) as [u|] eqn:Hu; [|reflexivity].
    rewrite (snapshot_mono h n (S n) (VRef a) u Hu ltac:(lia)) in Hvis. discriminate. }
  cbn [serializeValue]. rewrite pass_through.
  destruct x as [| |b|y|s|id|a]; cbn [visited_has];
    try (injection Hs as <-; reflexivity).
  - injection Hs as <-. cbn [encode_tree].
    repeat match goal with |- context [if ?c then _ else _] => destruct c end; reflexivity.
  - destruct (bool_decide (a ∈ visited)) eqn:Hin.
    { apply bool_decide_eq_true in Hin. rewrite (Hvis a Hin) in Hs. discriminate. }
    cbn [snapshot] in Hs.
    destruct (h !! a) as [[elems|props|tv|source flags|cls nm msg st|]|] eqn:Ha;
      try discriminate.
    + apply fmap_Some in Hs as (ts & Hts & ->). apply mapM_Some in Hts.
      cbn [encode_tree].
      rewrite <- (serialize_children_acyclic (fun c => c) push_element
                    (fun c => c) (fun _ w => w)
                    (serializeValue P h handleSerializer fuel) (encode_tree P h)
                    elems ts ({[a]} ∪ visited)).
      * destruct (serialize_children _ _ _ elems _) as [v' [ws|e|]]; reflexivity.
      * intros c. apply serializeValue_keeps_visited.
      * eapply Forall2_impl; [exact Hts|]. intros c t Hc. simpl in Hc.
        split; [|reflexivity]. apply IH; [assumption| |assumption].
        intros b Hb. apply elem_of_union in Hb as [Hb|Hb]; [|apply Hvis'; assumption].
        apply elem_of_singleton in Hb. subst b. exact Hprev.
    + apply fmap_Some in Hs as (ts & Hts & ->). apply mapM_Some in Hts.
      cbn [encode_tree].
      rewrite <- (serialize_children_acyclic snd push_entry snd push_entry
                    (serializeValue P h handleSerializer fuel) (encode_tree P h)
                    props ts ({[a]} ∪ visited)).
      * destruct (serialize_children _ _ _ props _) as [v' [ws|e|]]; reflexivity.
      * intros c. apply serializeValue_keeps_visited.
      * eapply Forall2_impl; [exact Hts|]. intros [k c] kt Hc. simpl in Hc.
        apply fmap_Some in Hc as (t & Ht & ->).
        split; [|reflexivity]. simpl. apply IH; [assumption| |assumption].
        intros b Hb. apply elem_of_union in Hb as [Hb|Hb]; [|apply Hvis'; assumption].
        apply elem_of_singleton in Hb. subst b. exact Hprev.
    + injection Hs as <-. reflexivity.
    + injection Hs as <-. reflexivity.
    + injection Hs as <-. cbn [encode_tree]. rewrite Ha. reflexivity.
    + injection Hs as <-. cbn [encode_tree]. rewrite Ha. reflexivity.
Qed.
End Acyclic.

(** ** Decoding what the encoder emits *)

Lemma insert_prop_last {A} (k : string) (x : A) (props : list (string * A)) :
  Forall (fun kv => key_before k (fst kv) = false) props ->
  insert_prop k x props = (props ++ [(k, x)])%list.
Proof.
  induction 1 as [|[k' x'] props Hk _ IH]; simpl; [reflexivity|].
  simpl in Hk. rewrite Hk, IH. reflexivity.
Qed.

Lemma has_prop_false {A} (k : string) (props : list (string * A)) :
  Forall (fun kv => String.eqb (fst kv) k = false) props -> has_prop k props = false.
Proof.
  induction 1 as [|[k' x'] props Hk _ IH]; simpl; [reflexivity|].
  simpl in Hk. rewrite Hk. exact IH.
Qed.

Lemma own_key_order_app (keys1 : list string) (k : string) (keys2 : list string) :
  own_key_order (keys1 ++ k :: keys2)%list = true ->
  Forall (fun k' => String.eqb k' k = false /\ key_before k k' = false) keys1.
Proof.
  induction keys1 as [|k1 keys1 IH]; simpl; intros H; [constructor|].
  apply andb_true_iff in H as [H1 H2]. constructor; [|apply IH; exact H2].
  rewrite forallb_forall in H1. specialize (H1 k).
  rewrite in_app_iff in H1. specialize (H1 (or_intror (or_introl eq_refl))).
  apply andb_true_iff in H1 as [Ha Hb].
  apply negb_true_iff in Ha, Hb. rewrite String.eqb_sym. split; assumption.
Qed.

Lemma assign_prop_last {A} (done : list (string * A)) (k : string) (x : A)
    (rest : list (string * A)) :
  own_key_order (List.map fst (done ++ (k, x) :: rest)%list) = true ->
  String.eqb k "__proto__" = false ->
  assign_prop k x done = (done ++ [(k, x)])%list.
Proof.
  intros Hord Hproto. unfold assign_prop. rewrite Hproto.
  rewrite map_app in Hord. simpl in Hord. apply own_key_order_app in Hord.
  rewrite Forall_map in Hord.
  rewrite has_prop_false by (eapply Forall_impl; [exact Hord|]; intros ? [? ?]; assumption).
  apply insert_prop_last. eapply Forall_impl; [exact Hord|]. intros ? [? ?]; assumption.
Qed.

Lemma assign_all_cons {A B} (f : A -> outcome B) (k : string) (x : A)
    (rest : list (string * A)) (result : list (string * B)) :
  assign_all f ((k, x) :: rest) result
  = match f x with
    | Return y => assign_all f rest (assign_prop k y result)
    | Throw e => Throw e
    | Exhausted => Exhausted
    end.
Proof. reflexivity. Qed.

Section RoundTrip.
Context (P : Platform) (h : heap) (handles : option (list value)).

Lemma elements_decode_back (elems : list native) :
  Forall (decodes_back P h handles) elems ->
  forallb (plain_data P) elems = true ->
  exists ws,
    encode_children (fun c => c) (fun _ w => w) (encode_tree P h) elems = Return ws
    /\ map_outcome (parseSerializedValue P handles) ws = Return elems.
Proof.
  induction 1 as [|t elems Ht _ IH]; simpl; intros Hall.
  - exists []. split; reflexivity.
  - apply andb_true_iff in Hall as [Hplain Hall].
    destruct (Ht Hplain) as (w & Hw & Hback). destruct (IH Hall) as (ws & Hws & Hbacks).
    exists (w :: ws). rewrite Hw, Hws. split; [reflexivity|].
    simpl. rewrite Hback, Hbacks. reflexivity.
Qed.

Lemma entries_decode_back (rest : list (string * native)) :
  Forall (fun kv => decodes_back P h handles (snd kv)) rest ->
  forall done,
    own_key_order (List.map fst (done ++ rest)%list) = true ->
    has_prop "__proto__" rest = false ->
    forallb (fun kv => plain_data P (snd kv)) rest = true ->
    exists ws,
      encode_children snd push_entry (encode_tree P h) rest = Return ws
      /\ assign_all (parseSerializedValue P handles) ws done = Return (done ++ rest)%list.
Proof.
  induction 1 as [|[k t] rest Ht _ IH]; simpl; intros done Hord Hproto Hall.
  - exists []. rewrite app_nil_r. split; reflexivity.
  - apply andb_true_iff in Hall as [Hplain Hall].
    apply orb_false_iff in Hproto as [Hk Hproto].
    destruct (Ht Hplain) as (w & Hw & Hback).
    destruct (IH (done ++ [(k, t)])%list) as (ws & Hws & Hbacks);
      [rewrite <- app_assoc; exact Hord|assumption|assumption|].
    exists ((k, w) :: ws). simpl in Hw. rewrite Hw, Hws. split; [reflexivity|].
    simpl snd in Hback. rewrite assign_all_cons, Hback. cbv beta iota.
    rewrite (assign_prop_last done k t rest Hord Hk).
    rewrite Hbacks, <- app_assoc. reflexivity.
Qed.

Lemma decode_encode (t : native) : decodes_back P h handles t.
Proof.
  induction t as [v|tv|source flags|elems IH|props IH] using native_nested_ind;
    unfold decodes_back; simpl; intros Hplain.
  - destruct v as [| |b|x|s|id|a]; try discriminate;
      try (eexists; split; reflexivity).
    destruct x as [[|]|[|]| |sg m e]; eexists; split; reflexivity.
  - destruct tv as [tv|]; [|discriminate]. apply bool_decide_eq_true in Hplain.
    eexists. split; [reflexivity|]. simpl. rewrite Hplain. reflexivity.
  - apply bool_decide_eq_true in Hplain.
    eexists. split; [reflexivity|]. simpl. unfold new_RegExp. rewrite Hplain. reflexivity.
  - destruct (elements_decode_back elems IH Hplain) as (ws & Hws & Hback).
    rewrite Hws. eexists. split; [reflexivity|]. simpl. rewrite Hback. reflexivity.
  - apply andb_true_iff in Hplain as [Hplain Hall].
    apply andb_true_iff in Hplain as [Hord Hproto]. apply negb_true_iff in Hproto.
    destruct (entries_decode_back props IH [] Hord Hproto Hall) as (ws & Hws & Hback).
    rewrite Hws. eexists. split; [reflexivity|]. simpl. rewrite Hback. reflexivity.
Qed.
End RoundTrip.

(** ** Round trip *)

(** Encoding with a pass-through resolver and decoding again rebuilds
    the observed structure of every acyclic value made of plain data,
    and leaves the visited set empty. *)
Lemma round_trip (P : Platform) (h : heap) (handleSerializer : value -> HandleOrValue)
    (handles : option (list value)) (n fuel : nat) (x : value) (t : native) :
  (forall y, handleSerializer y = FallThrough y) ->
  snapshot h n x = Some t ->
  plain_data P t = true ->
  n <= fuel ->
  exists w,
    serializeValue P h handleSerializer fuel x ∅ = (∅, Return w)
    /\ parseSerializedValue P handles w = Return t.
Proof.
  intros Hpass Hs Hplain Hfuel.
  destruct (decode_encode P h handles t Hplain) as (w & Hw & Hback).
  exists w. split; [|exact Hback].
  pose proof (serialize_acyclic P h handleSerializer Hpass n x t ∅ fuel Hs
                ltac:(intros a Ha; set_solver) Hfuel) as Hsnd.
  destruct (serializeValue_keeps_visited P h handleSerializer fuel x ∅) as [_ Hret].
  destruct (serializeValue P h handleSerializer fuel x ∅) as [visited' r]; simpl in *.
  rewrite Hsnd, Hw in *. rewrite (Hret eq_refl). reflexivity.
Qed.

(** C1 at two inputs the code does not carry through.  An invalid date
    is encoded as [{d: null}], which decodes to the date of time value
    0; an own property named [__proto__] is encoded, and lost when the
    decoder assigns it.  So the round trip does not hold for every
    acyclic value of the listed kinds. *)
Theorem round_trip_failing_inputs :
  (snapshot invalid_date 1 (VRef 0) = Some (NDate None)
   /\ serializeValue node invalid_date always_fallThrough 1 (VRef 0) ∅
      = (∅, Return (sv_of_d JNull))
   /\ parseSerializedValue node None (sv_of_d JNull) = Return (NDate (Some 0%Z)))
  /\ (snapshot proto_keyed 2 (VRef 0) = Some (NObject [("__proto__", NValue (VNumber one))])
      /\ serializeValue node proto_keyed always_fallThrough 2 (VRef 0) ∅
         = (∅, Return (sv_of_o [("__proto__", sv_of_n one)]))
      /\ parseSerializedValue node None (sv_of_o [("__proto__", sv_of_n one)])
         = Return (NObject []))
  /\ ~ (forall (P : Platform) (h : heap) (n fuel : nat) (x : value) (t : native),
           snapshot h n x = Some t ->
           listed_kinds t = true ->
           n <= fuel ->
           exists w,
             snd (serializeValue P h always_fallThrough fuel x ∅) = Return w
             /\ parseSerializedValue P None w = Return t).
Proof.
  split; [vm_compute; repeat split|]. split; [vm_compute; repeat split|].
  intros H.
  destruct (H node invalid_date 1 1 (VRef 0) (NDate None)
              ltac:(vm_compute; reflexivity) ltac:(reflexivity) ltac:(lia))
    as (w & Hser & Hparse).
  vm_compute in Hser. injection Hser as <-.
  vm_compute in Hparse. discriminate.
Qed.

(** ** Depth and sharing *)

Lemma encode_children_outcome_in {A B} (get : A -> native)
    (put : A -> SerializedValue -> B) enc ok_exn ok_exhausted (children : list A) :
  Forall (fun c => outcome_in ok_exn ok_exhausted (enc (get c))) children ->
  outcome_in ok_exn ok_exhausted (encode_children get put enc children).
Proof.
  induction 1 as [|c children Hc _ IH]; simpl; [exact I|].
  destruct (enc (get c)); try exact Hc.
  destruct (encode_children get put enc children); simpl in *; auto.
Qed.

(** The only failure of the reference encoder is 'Unexpected value'. *)
Lemma encode_tree_outcome (P : Platform) (h : heap) (t : native) :
  outcome_in (fun e => e = unexpected_value) False (encode_tree P h t).
Proof.
  induction t as [v|tv|source flags|elems IH|props IH] using native_nested_ind; simpl;
    try exact I.
  - destruct v as [| |b|x|s|id|a]; simpl; try exact I.
    + repeat match goal with |- context [if ?c then _ else _] => destruct c end; exact I.
    + destruct (h !! a) as [[| | | | |]|]; simpl; auto.
  - pose proof (encode_children_outcome_in (fun c => c) (fun _ w => w) (encode_tree P h)
                  (fun e => e = unexpected_value) False elems IH) as H.
    destruct (encode_children _ _ _ elems); simpl in *; auto.
  - pose proof (encode_children_outcome_in snd push_entry (encode_tree P h)
                  (fun e => e = unexpected_value) False props IH) as H.
    destruct (encode_children _ _ _ props); simpl in *; auto.
Qed.

Lemma nested_arrays_lookup (m k : nat) :
  k <= m ->
  nested_arrays m !! k
  = Some (OArray (match k with O => [] | S j => [VRef j] end)).
Proof.
  induction m as [|m IH]; intros Hk; simpl.
  - assert (k = 0) as -> by lia. apply lookup_singleton_eq.
  - destruct (decide (k = S m)) as [->|Hne].
    + apply lookup_insert_eq.
    + rewrite lookup_insert_ne by congruence. apply IH. lia.
Qed.

Lemma nested_arrays_snapshot (m k : nat) :
  k <= m ->
  snapshot (nested_arrays m) k (VRef k) = None
  /\ snapshot (nested_arrays m) (S k) (VRef k) = Some (nested_tree k).
Proof.
  induction k as [|k IH]; intros Hk.
  - split; [reflexivity|]. cbn [snapshot]. rewrite (nested_arrays_lookup m 0 Hk). reflexivity.
  - destruct IH as [IHnone IHsome]; [lia|]. split.
    + cbn [snapshot]. rewrite (nested_arrays_lookup m (S k) Hk).
      cbn. rewrite IHnone. reflexivity.
    + cbn [snapshot]. rewrite (nested_arrays_lookup m (S k) Hk).
      cbn [snapshot] in IHsome. cbn. rewrite IHsome. reflexivity.
Qed.

Lemma nested_tree_encodes (P : Platform) (h : heap) (n : nat) :
  encode_tree P h (nested_tree n) = Return (nested_wire n).
Proof.
  induction n as [|n IH]; [reflexivity|].
  cbn [nested_tree nested_wire encode_tree encode_children]. rewrite IH. reflexivity.
Qed.

Lemma nested_arrays_exhaust (P : Platform) (hs : value -> HandleOrValue) (m : nat) :
  (forall y, hs y = FallThrough y) ->
  forall (fuel k : nat) (visited : gset addr),
    fuel <= k -> k <= m ->
    (forall a, a ∈ visited -> k < a) ->
    snd (serializeValue P (nested_arrays m) hs fuel (VRef k) visited) = Exhausted.
Proof.
  intros Hpass. induction fuel as [|fuel IH]; intros k visited Hf Hk Hvis; [reflexivity|].
  destruct k as [|k]; [lia|].
  cbn [serializeValue]. rewrite Hpass. cbn [visited_has].
  rewrite bool_decide_eq_false_2 by (intros Hin; specialize (Hvis _ Hin); lia).
  rewrite (nested_arrays_lookup m (S k) Hk). cbn [serialize_children].
  specialize (IH k ({[S k]} ∪ visited) ltac:(lia) ltac:(lia)).
  destruct (serializeValue P (nested_arrays m) hs fuel (VRef k) ({[S k]} ∪ visited))
    as [visited' r]. simpl in IH. rewrite IH; [reflexivity|].
  intros a Ha. apply elem_of_union in Ha as [Ha|Ha].
  - apply elem_of_singleton in Ha. lia.
  - specialize (Hvis a Ha). lia.
Qed.

(** C8, as stated, fails: whatever maximum is proposed, an array nested
    more deeply is encoded without any error by a stack that admits the
    nesting. *)
Lemma no_maximum_depth :
  ~ (exists max : nat,
       forall (P : Platform) (h : heap) (hs : value -> HandleOrValue)
              (fuel : nat) (x : value),
         snapshot h max x = None ->
         exists e, snd (serializeValue P h hs fuel x ∅) = Throw e).
Proof.
  intros [max H].
  destruct (nested_arrays_snapshot max max (le_n max)) as [Hnone Hsome].
  destruct (H node (nested_arrays max) always_fallThrough (S max) (VRef max) Hnone)
    as [e He].
  rewrite (serialize_acyclic node (nested_arrays max) always_fallThrough
             (fun y => eq_refl) (S max) (VRef max) (nested_tree max) ∅ (S max) Hsome
             ltac:(intros a Ha; set_solver) (le_n _)) in He.
  rewrite nested_tree_encodes in He. discriminate.
Qed.

(** C8, amended.  There is no maximum depth and no error for deep
    nesting.  On acyclic input the recursion is as deep as the structure:
    once the stack admits that many nested calls the outcome is the
    encoding of the structure or 'Unexpected value', the same for every
    larger stack.  Arrays nested to any depth are encoded by a stack
    that admits the nesting, and exhaust a smaller one. *)
Theorem depth_bounded_by_structure (P : Platform) (h : heap)
    (handleSerializer : value -> HandleOrValue) (n fuel : nat) (x : value) (t : native) :
  (forall y, handleSerializer y = FallThrough y) ->
  snapshot h n x = Some t ->
  n <= fuel ->
  snd (serializeValue P h handleSerializer fuel x ∅) = encode_tree P h t
  /\ outcome_in (fun e => e = unexpected_value) False (encode_tree P h t)
  /\ (forall depth : nat,
        snd (serializeValue P (nested_arrays depth) handleSerializer (S depth)
               (VRef depth) ∅) = Return (nested_wire depth)
        /\ forall smaller, smaller <= depth ->
             snd (serializeValue P (nested_arrays depth) handleSerializer smaller
                    (VRef depth) ∅) = Exhausted).
Proof.
  intros Hpass Hs Hfuel. split; [|split].
  - apply (serialize_acyclic P h handleSerializer Hpass n x t ∅ fuel Hs); [|exact Hfuel].
    intros a Ha. set_solver.
  - apply encode_tree_outcome.
  - intros depth. split.
    + destruct (nested_arrays_snapshot depth depth (le_n depth)) as [_ Hsome].
      rewrite (serialize_acyclic P (nested_arrays depth) handleSerializer Hpass
                 (S depth) (VRef depth) (nested_tree depth) ∅ (S depth) Hsome
                 ltac:(intros a Ha; set_solver) (le_n _)).
      apply nested_tree_encodes.
    + intros smaller Hsm.
      apply (nested_arrays_exhaust P handleSerializer depth Hpass); [assumption|lia|].
      intros a Ha. set_solver.
Qed.

Lemma depth_bounded_by_structure_witness :
  snd (serializeValue node shared_pair always_fallThrough 3 (VRef 0) ∅)
  = encode_tree node shared_pair
      (NArray [NObject [("k", NValue (VNumber one))]; NObject [("k", NValue (VNumber one))]])
  /\ outcome_in (fun e => e = unexpected_value) False
       (encode_tree node shared_pair
          (NArray [NObject [("k", NValue (VNumber one))];
                   NObject [("k", NValue (VNumber one))]]))
  /\ (forall depth : nat,
        snd (serializeValue node (nested_arrays depth) always_fallThrough (S depth)
               (VRef depth) ∅) = Return (nested_wire depth)
        /\ forall smaller, smaller <= depth ->
             snd (serializeValue node (nested_arrays depth) always_fallThrough smaller
                    (VRef depth) ∅) = Exhausted).
Proof.
  apply (depth_bounded_by_structure node shared_pair always_fallThrough 3 3 (VRef 0)).
  - intros y. reflexivity.
  - vm_compute. reflexivity.
  - lia.
Defined.

(** C5, as stated, fails for a non-cyclic object the encoder does not
    accept: [[x, x]] with [x] holding a function raises 'Unexpected
    value'. *)
Lemma shared_pair_of_unencodable_throws :
  (snapshot shared_function_holder 2 (VRef 1) = Some (NObject [("f", NValue (VRef 2))])
   /\ snd (serializeValue node shared_function_holder always_fallThrough 4 (VRef 0) ∅)
      = Throw unexpected_value)
  /\ ~ (forall (P : Platform) (h : heap) (hs : value -> HandleOrValue) (arr : addr)
           (x : value) (n fuel : nat) (t : native),
           (forall y, hs y = FallThrough y) ->
           h !! arr = Some (OArray [x; x]) ->
           snapshot h n x = Some t ->
           n <= fuel ->
           is_Return (snd (serializeValue P h hs (S fuel) (VRef arr) ∅)) = true).
Proof.
  assert (E : snd (serializeValue node shared_function_holder always_fallThrough 4
                     (VRef 0) ∅) = Throw unexpected_value) by (vm_compute; reflexivity).
  split; [split; [vm_compute; reflexivity|exact E]|].
  intros H.
  specialize (H node shared_function_holder always_fallThrough 0 (VRef 1) 2 3
                (NObject [("f", NValue (VRef 2))]) (fun y => eq_refl)
                ltac:(vm_compute; reflexivity) ltac:(vm_compute; reflexivity) ltac:(lia)).
  rewrite E in H. discriminate.
Qed.

(** C5, amended.  For a non-cyclic [x], encoding [[x, x]] is never
    reported as a circular structure, and whenever [x] on its own is
    encoded to [w], the array is encoded to [{a: [w, w]}]: [x]
    structurally at both positions. *)
Theorem sibling_reuse_is_not_cyclic (P : Platform) (h : heap)
    (handleSerializer : value -> HandleOrValue) (arr : addr) (x : value)
    (n fuel : nat) (t : native) :
  (forall y, handleSerializer y = FallThrough y) ->
  h !! arr = Some (OArray [x; x]) ->
  snapshot h n x = Some t ->
  n <= fuel ->
  snd (serializeValue P h handleSerializer (S fuel) (VRef arr) ∅) <> Throw circular_structure
  /\ forall w,
       snd (serializeValue P h handleSerializer fuel x ∅) = Return w ->
       serializeValue P h handleSerializer (S fuel) (VRef arr) ∅
       = (∅, Return (sv_of_a [w; w])).
Proof.
  intros Hpass Harr Hs Hfuel.
  assert (Hwhole : snapshot h (S n) (VRef arr) = Some (NArray [t; t])).
  { cbn [snapshot]. rewrite Harr. cbn. rewrite Hs. reflexivity. }
  pose proof (serialize_acyclic P h handleSerializer Hpass (S n) (VRef arr) (NArray [t; t])
                ∅ (S fuel) Hwhole ltac:(intros a Ha; set_solver) ltac:(lia)) as Hsnd.
  pose proof (serialize_acyclic P h handleSerializer Hpass n x t ∅ fuel Hs
                ltac:(intros a Ha; set_solver) Hfuel) as Hx.
  split.
  - rewrite Hsnd. pose proof (encode_tree_outcome P h (NArray [t; t])) as Hout.
    destruct (encode_tree P h (NArray [t; t])); simpl in Hout; try discriminate.
    subst e. discriminate.
  - intros w Hw. rewrite Hx in Hw.
    destruct (serializeValue_keeps_visited P h handleSerializer (S fuel) (VRef arr) ∅)
      as [_ Hret].
    destruct (serializeValue P h handleSerializer (S fuel) (VRef arr) ∅) as [visited' r].
    simpl in Hsnd, Hret. subst r.
    cbn [encode_tree encode_children] in Hret |- *. rewrite Hw in Hret |- *.
    rewrite (Hret eq_refl). reflexivity.
Qed.

Lemma sibling_reuse_is_not_cyclic_witness :
  snd (serializeValue node shared_pair always_fallThrough 3 (VRef 0) ∅)
  <> Throw circular_structure
  /\ forall w,
       snd (serializeValue node shared_pair always_fallThrough 2 (VRef 1) ∅) = Return w ->
       serializeValue node shared_pair always_fallThrough 3 (VRef 0) ∅
       = (∅, Return (sv_of_a [w; w])).
Proof.
  apply (sibling_reuse_is_not_cyclic node shared_pair always_fallThrough 0 (VRef 1) 2 2
           (NObject [("k", NValue (VNumber one))])).
  - intros y. reflexivity.
  - vm_compute. reflexivity.
  - vm_compute. reflexivity.
  - lia.
Defined.

(** ** Cycles *)

Lemma serialize_children_outcome_in {A B} (get : A -> value)
    (put : A -> SerializedValue -> B) rec ok_exn ok_exhausted
    (children : list A) (visited : gset addr) :
  (forall c, keeps_visited (rec c)) ->
  Forall (fun c => outcome_in ok_exn ok_exhausted (snd (rec (get c) visited))) children ->
  outcome_in ok_exn ok_exhausted (snd (serialize_children get put rec children visited)).
Proof.
  intros Hkeep. induction 1 as [|c children Hc _ IH]; simpl; [exact I|].
  destruct (Hkeep (get c) visited) as [_ Hret].
  destruct (rec (get c) visited) as [visited1 [w|e|]]; simpl in *; try exact Hc.
  rewrite (Hret eq_refl).
  destruct (serialize_children get put rec children visited) as [visited2 [ws|e|]];
    simpl in *; auto.
Qed.

Lemma serialize_children_not_Return {A B} (get : A -> value)
    (put : A -> SerializedValue -> B) rec (children : list A) (visited : gset addr) :
  (forall c, keeps_visited (rec c)) ->
  Exists (fun c => is_Return (snd (rec (get c) visited)) = false) children ->
  is_Return (snd (serialize_children get put rec children visited)) = false.
Proof.
  intros Hkeep. induction 1 as [c children Hc|c children _ IH]; simpl.
  - destruct (rec (get c) visited) as [visited1 [w|e|]]; simpl in *;
      [discriminate|reflexivity|reflexivity].
  - destruct (Hkeep (get c) visited) as [_ Hret].
    destruct (rec (get c) visited) as [visited1 [w|e|]]; simpl in *; try reflexivity.
    rewrite (Hret eq_refl).
    destruct (serialize_children get put rec children visited) as [visited2 [ws|e|]];
      simpl in *; [discriminate|reflexivity|reflexivity].
Qed.

Section Cycles.
Context (P : Platform) (h : heap) (handleSerializer : value -> HandleOrValue).
Hypothesis pass_through : forall x, handleSerializer x = FallThrough x.

(** Every nested call puts one more object of the heap into the
    visited set, so a stack deeper than the number of objects not yet
    visited is never exhausted. *)
Lemma serializeValue_terminates (fuel : nat) :
  forall (x : value) (visited : gset addr),
    size (dom h ∖ visited) < fuel ->
    outcome_in (fun _ => True) False
      (snd (serializeValue P h handleSerializer fuel x visited)).
Proof.
  induction fuel as [|fuel IH]; intros x visited Hsize; [lia|].
  cbn [serializeValue]. rewrite pass_through.
  destruct (visited_has visited x) eqn:Hhas; [exact I|].
  destruct x as [| |b|y|s|id|a]; try exact I.
  - repeat match goal with |- context [if ?c then _ else _] => destruct c end; exact I.
  - cbn [visited_has] in Hhas. apply bool_decide_eq_false in Hhas.
    destruct (h !! a) as [[elems|props|tv|source flags|cls nm msg st|]|] eqn:Ha;
      try exact I.
    + assert (Hless : size (dom h ∖ ({[a]} ∪ visited)) < fuel).
      { assert (Hsub : dom h ∖ ({[a]} ∪ visited) ⊂ dom h ∖ visited).
        { assert (a ∈ dom h) by (apply elem_of_dom; eauto). set_solver. }
        apply subset_size in Hsub. lia. }
      pose proof (serialize_children_outcome_in (fun c => c) push_element
                    (serializeValue P h handleSerializer fuel) (fun _ => True) False
                    elems ({[a]} ∪ visited)
                    (fun c => serializeValue_keeps_visited P h handleSerializer fuel c)
                    ltac:(apply Forall_forall; intros c _; apply IH; exact Hless)) as H.
      destruct (serialize_children _ _ _ elems _) as [visited' [ws|e|]]; simpl in *; auto.
    + assert (Hless : size (dom h ∖ ({[a]} ∪ visited)) < fuel).
      { assert (Hsub : dom h ∖ ({[a]} ∪ visited) ⊂ dom h ∖ visited).
        { assert (a ∈ dom h) by (apply elem_of_dom; eauto). set_solver. }
        apply subset_size in Hsub. lia. }
      pose proof (serialize_children_outcome_in snd push_entry
                    (serializeValue P h handleSerializer fuel) (fun _ => True) False
                    props ({[a]} ∪ visited)
                    (fun c => serializeValue_keeps_visited P h handleSerializer fuel c)
                    ltac:(apply Forall_forall; intros c _; apply IH; exact Hless)) as H.
      destruct (serialize_children _ _ _ props _) as [visited' [ws|e|]]; simpl in *; auto.
Qed.

(** In an encodable heap the only error is the circular-structure one. *)
Lemma serializeValue_only_circular (fuel : nat) :
  encodable_heap h = true ->
  forall (x : value) (visited : gset addr),
    resolves h x = true ->
    outcome_in (fun e => e = circular_structure) True
      (snd (serializeValue P h handleSerializer fuel x visited)).
Proof.
  intros Hheap. apply bool_decide_eq_true in Hheap.
  induction fuel as [|fuel IH]; intros x visited Hx; [exact I|].
  cbn [serializeValue]. rewrite pass_through.
  destruct (visited_has visited x) eqn:Hhas; [reflexivity|].
  destruct x as [| |b|y|s|id|a]; try exact I.
  - repeat match goal with |- context [if ?c then _ else _] => destruct c end; exact I.
  - cbn [resolves] in Hx. apply bool_decide_eq_true in Hx. destruct Hx as [o Ha].
    pose proof (Hheap a o Ha) as Ho. cbn beta in Ho. rewrite Ha.
    destruct o as [elems|props|tv|source flags|cls nm msg st|]; try exact I;
      [| |discriminate]; cbn [obj_encodable] in Ho; rewrite forallb_forall in Ho.
    + pose proof (serialize_children_outcome_in (fun c => c) push_element
                    (serializeValue P h handleSerializer fuel)
                    (fun e => e = circular_structure) True
                    elems ({[a]} ∪ visited)
                    (fun c => serializeValue_keeps_visited P h handleSerializer fuel c)
                    ltac:(apply Forall_forall; intros c Hc; apply IH, Ho;
                          apply list_elem_of_In; exact Hc)) as H.
      destruct (serialize_children _ _ _ elems _) as [visited' [ws|e|]]; simpl in *; auto.
    + pose proof (serialize_children_outcome_in snd push_entry
                    (serializeValue P h handleSerializer fuel)
                    (fun e => e = circular_structure) True
                    props ({[a]} ∪ visited)
                    (fun c => serializeValue_keeps_visited P h handleSerializer fuel c)
                    ltac:(apply Forall_forall; intros c Hc; apply IH, (Ho c);
                          apply list_elem_of_In; exact Hc)) as H.
      destruct (serialize_children _ _ _ props _) as [visited' [ws|e|]]; simpl in *; auto.
Qed.

(** A value already in the visited set is rejected on the spot. *)
Lemma visited_rejected (fuel : nat) (a : addr) (visited : gset addr) :
  a ∈ visited ->
  serializeValue P h handleSerializer (S fuel) (VRef a) visited
  = (visited, Throw circular_structure).
Proof.
  intros Ha. cbn [serializeValue]. rewrite pass_through. cbn [visited_has].
  rewrite bool_decide_eq_true_2 by exact Ha. reflexivity.
Qed.

(** An object that holds itself is never encoded. *)
Lemma self_reference_not_Return (fuel : nat) (a : addr) (visited : gset addr) :
  holds_itself h a = true ->
  is_Return (snd (serializeValue P h handleSerializer fuel (VRef a) visited)) = false.
Proof.
  intros Hself. destruct fuel as [|fuel]; [reflexivity|].
  cbn [serializeValue]. rewrite pass_through. cbn [visited_has].
  destruct (bool_decide (a ∈ visited)); [reflexivity|].
  unfold holds_itself in Hself.
  assert (Hchild : is_Return (snd (serializeValue P h handleSerializer fuel (VRef a)
                                     ({[a]} ∪ visited))) = false).
  { destruct fuel as [|fuel]; [reflexivity|].
    rewrite visited_rejected by set_solver. reflexivity. }
  destruct (h !! a) as [[elems|props|tv|source flags|cls nm msg st|]|];
    try discriminate.
  - pose proof (serialize_children_not_Return (fun c => c) push_element
                  (serializeValue P h handleSerializer fuel) elems ({[a]} ∪ visited)
                  (fun c => serializeValue_keeps_visited P h handleSerializer fuel c)) as H.
    destruct (serialize_children _ _ _ elems _) as [visited' [ws|e|]];
      simpl in *; try reflexivity.
    apply H. apply existsb_exists in Hself as (c & Hin & Hc).
    apply Exists_exists. exists c. split; [apply list_elem_of_In; exact Hin|].
    destruct c; try discriminate. simpl in Hc. apply Nat.eqb_eq in Hc. subst. exact Hchild.
  - pose proof (serialize_children_not_Return snd push_entry
                  (serializeValue P h handleSerializer fuel) props ({[a]} ∪ visited)
                  (fun c => serializeValue_keeps_visited P h handleSerializer fuel c)) as H.
    destruct (serialize_children _ _ _ props _) as [visited' [ws|e|]];
      simpl in *; try reflexivity.
    apply H. apply existsb_exists in Hself as ([k c] & Hin & Hc).
    apply Exists_exists. exists (k, c). split; [apply list_elem_of_In; exact Hin|].
    destruct c; try discriminate. simpl in Hc. apply Nat.eqb_eq in Hc. subst. exact Hchild.
Qed.
End Cycles.

(** The encoder raises no other error than its own two. *)
Lemma serializeValue_errors (P : Platform) (h : heap)
    (handleSerializer : value -> HandleOrValue) (fuel : nat) :
  forall (x : value) (visited : gset addr),
    outcome_in (fun e => e = circular_structure \/ e = unexpected_value) True
      (snd (serializeValue P h handleSerializer fuel x visited)).
Proof.
  induction fuel as [|fuel IH]; intros x visited; [exact I|].
  cbn [serializeValue]. destruct (handleSerializer x) as [k|y]; [exact I|].
  destruct (visited_has visited y); [left; reflexivity|].
  destruct y as [| |b|y|s|id|a]; try exact I.
  - repeat match goal with |- context [if ?c then _ else _] => destruct c end; exact I.
  - destruct (h !! a) as [[elems|props|tv|source flags|cls nm msg st|]|];
      try exact I; try (right; reflexivity).
    + pose proof (serialize_children_outcome_in (fun c => c) push_element
                    (serializeValue P h handleSerializer fuel)
                    (fun e => e = circular_structure \/ e = unexpected_value) True
                    elems ({[a]} ∪ visited)
                    (fun c => serializeValue_keeps_visited P h handleSerializer fuel c)
                    ltac:(apply Forall_forall; intros c _; apply IH)) as H.
      destruct (serialize_children _ _ _ elems _) as [visited' [ws|e|]]; simpl in *; auto.
    + pose proof (serialize_children_outcome_in snd push_entry
                    (serializeValue P h handleSerializer fuel)
                    (fun e => e = circular_structure \/ e = unexpected_value) True
                    props ({[a]} ∪ visited)
                    (fun c => serializeValue_keeps_visited P h handleSerializer fuel c)
                    ltac:(apply Forall_forall; intros c _; apply IH)) as H.
      destruct (serialize_children _ _ _ props _) as [visited' [ws|e|]]; simpl in *; auto.
Qed.

(** C3, as stated, fails when something the encoder does not accept
    comes before the self-reference: the error is then 'Unexpected
    value', not the circular-structure one. *)
Lemma self_reference_behind_function :
  (holds_itself function_then_self 0 = true
   /\ snd (serializeValue node function_then_self always_fallThrough 3 (VRef 0) ∅)
      = Throw unexpected_value)
  /\ ~ (forall (P : Platform) (h : heap) (hs : value -> HandleOrValue) (a : addr)
           (fuel : nat),
           (forall y, hs y = FallThrough y) ->
           holds_itself h a = true ->
           size (dom h) < fuel ->
           snd (serializeValue P h hs fuel (VRef a) ∅) = Throw circular_structure).
Proof.
  assert (E : snd (serializeValue node function_then_self always_fallThrough 3
                     (VRef 0) ∅) = Throw unexpected_value) by (vm_compute; reflexivity).
  split; [split; [vm_compute; reflexivity|exact E]|].
  intros H.
  specialize (H node function_then_self always_fallThrough 0 3 (fun y => eq_refl)
                ltac:(vm_compute; reflexivity) ltac:(vm_compute; lia)).
  rewrite E in H. discriminate.
Qed.

(** C3, amended.  Encoding an array or object that holds itself always
    fails, and never exhausts a stack deeper than the number of objects
    in the heap: it fails with the circular-structure error, or with
    'Unexpected value' when a value the encoder does not accept is met
    first; in a heap without such values the error is the
    circular-structure one.  A value found in the visited set is
    rejected before its contents are looked at, whatever they are. *)
Theorem self_reference_rejected (P : Platform) (h : heap)
    (handleSerializer : value -> HandleOrValue) (a : addr) (visited : gset addr)
    (fuel : nat) :
  (forall y, handleSerializer y = FallThrough y) ->
  holds_itself h a = true ->
  size (dom h ∖ visited) < fuel ->
  (exists e, snd (serializeValue P h handleSerializer fuel (VRef a) visited) = Throw e
             /\ (e = circular_structure \/ e = unexpected_value))
  /\ (encodable_heap h = true ->
      snd (serializeValue P h handleSerializer fuel (VRef a) visited)
      = Throw circular_structure)
  /\ (forall (h' : heap) (fuel' : nat) (visited' : gset addr),
        a ∈ visited' ->
        serializeValue P h' handleSerializer (S fuel') (VRef a) visited'
        = (visited', Throw circular_structure)).
Proof.
  intros Hpass Hself Hsize.
  pose proof (serializeValue_terminates P h handleSerializer Hpass fuel (VRef a) visited Hsize)
    as Hterm.
  pose proof (self_reference_not_Return P h handleSerializer Hpass fuel a visited Hself)
    as Hnot.
  pose proof (serializeValue_errors P h handleSerializer fuel (VRef a) visited) as Herr.
  split; [|split].
  - destruct (snd (serializeValue P h handleSerializer fuel (VRef a) visited)) as [w|e|];
      simpl in *; [discriminate| |contradiction].
    exists e. split; [reflexivity|exact Herr].
  - intros Hheap.
    assert (Hres : resolves h (VRef a) = true).
    { unfold holds_itself in Hself. cbn [resolves]. apply bool_decide_eq_true.
      destruct (h !! a); [eauto|discriminate]. }
    pose proof (serializeValue_only_circular P h handleSerializer Hpass fuel Hheap
                  (VRef a) visited Hres) as Hcirc.
    destruct (snd (serializeValue P h handleSerializer fuel (VRef a) visited)) as [w|e|];
      simpl in *; [discriminate| |contradiction].
    rewrite Hcirc. reflexivity.
  - intros h' fuel' visited' Ha. apply visited_rejected; assumption.
Qed.

Lemma self_reference_rejected_witness :
  snd (serializeValue node self_object always_fallThrough 2 (VRef 0) ∅)
  = Throw circular_structure
  /\ snd (serializeValue node self_array always_fallThrough 2 (VRef 0) ∅)
     = Throw circular_structure.
Proof.
  split.
  - apply (self_reference_rejected node self_object always_fallThrough 0 ∅ 2).
    + intros y. reflexivity.
    + vm_compute. reflexivity.
    + vm_compute. lia.
    + vm_compute. reflexivity.
  - apply (self_reference_rejected node self_array always_fallThrough 0 ∅ 2).
    + intros y. reflexivity.
    + vm_compute. reflexivity.
    + vm_compute. lia.
    + vm_compute. reflexivity.
Defined.

(** ** The error adapter *)

(** C7, as stated, fails in its last clause: a thrown plain object that
    holds an error object comes back holding the error's stack text
    instead. *)
Lemma thrown_object_with_error_not_equal :
  (helper_isError thrown_with_cause (VRef 0) = false
   /\ snapshot thrown_with_cause 2 (VRef 0) = Some (NObject [("cause", NValue (VRef 1))])
   /\ serializeError node thrown_with_cause 2 (VRef 0)
      = Return {| se_error := None;
                  se_value := Some (sv_of_o [("cause", sv_of_s "Error: boom")]) |}
   /\ parseError node {| se_error := None;
                         se_value := Some (sv_of_o [("cause", sv_of_s "Error: boom")]) |}
      = Return (PValue (NObject [("cause", NValue (VString "Error: boom"))])))
  /\ ~ (forall (P : Platform) (h : heap) (fuel n : nat) (a : addr)
           (props : list (string * value)) (t : native),
           h !! a = Some (OObject props) ->
           snapshot h n (VRef a) = Some t ->
           n <= fuel ->
           exists payload,
             serializeError P h fuel (VRef a) = Return payload
             /\ parseError P payload = Return (PValue t)).
Proof.
  split; [vm_compute; repeat split|].
  intros H.
  destruct (H node thrown_with_cause 2 2 0 [("cause", VRef 1)]
              (NObject [("cause", NValue (VRef 1))])
              ltac:(vm_compute; reflexivity) ltac:(vm_compute; reflexivity) ltac:(lia))
    as (payload & Hser & Hparse).
  vm_compute in Hser. injection Hser as <-.
  vm_compute in Hparse. discriminate.
Qed.

(** C7, amended.  [serializeError] wraps an error-like value as the
    error branch with its message, stack and name, and any other value
    as the value branch holding what the generic encoder returns with
    the always-pass-through resolver (failing as the encoder fails); a
    payload it returns has exactly one branch.  [parseError] fails when
    both branches are absent; when the error branch is present it makes
    a [TimeoutError] if the name is 'TimeoutError' and a plain [Error]
    otherwise, with the given message and stack.  A timeout error goes
    through both as a timeout error with its message and stack, and a
    thrown acyclic value made of plain data comes back structurally
    equal. *)
Theorem error_adapter (P : Platform) (h : heap) (fuel n : nat)
    (timeout : addr) (msg : string) (st : option string)
    (thrown : value) (t : native) :
  h !! timeout = Some (OError TimeoutErrorClass "TimeoutError" msg st) ->
  helper_isError h thrown = false ->
  snapshot h n thrown = Some t ->
  plain_data P t = true ->
  n <= fuel ->
  (forall e, helper_isError h e = true ->
     serializeError P h fuel e
     = Return {| se_error := Some (error_fields h e); se_value := None |})
  /\ (forall e, helper_isError h e = false ->
        serializeError P h fuel e
        = match snd (serializeValue P h always_fallThrough fuel e ∅) with
          | Return w => Return {| se_error := None; se_value := Some w |}
          | Throw x => Throw x
          | Exhausted => Exhausted
          end)
  /\ (forall e payload, serializeError P h fuel e = Return payload ->
        exactly_one_branch payload = true)
  /\ parseError P {| se_error := None; se_value := None |}
     = Throw (Error "Serialized error must have either an error or a value")
  /\ (forall err w,
        parseError P {| se_error := Some err; se_value := w |}
        = Return (if String.eqb (name err) "TimeoutError"
                  then PError TimeoutErrorClass "TimeoutError" (message err)
                         (or_empty (stack err))
                  else PError GenericError "Error" (message err) (or_empty (stack err))))
  /\ (exists payload,
        serializeError P h fuel (VRef timeout) = Return payload
        /\ parseError P payload
           = Return (PError TimeoutErrorClass "TimeoutError" msg (or_empty st)))
  /\ (exists payload,
        serializeError P h fuel thrown = Return payload
        /\ parseError P payload = Return (PValue t)).
Proof.
  intros Htimeout Hplainval Hs Hplain Hfuel.
  assert (HA : forall e, helper_isError h e = true ->
                 serializeError P h fuel e
                 = Return {| se_error := Some (error_fields h e); se_value := None |}).
  { intros e He. unfold serializeError. rewrite He. reflexivity. }
  assert (HB : forall e, helper_isError h e = false ->
                 serializeError P h fuel e
                 = match snd (serializeValue P h always_fallThrough fuel e ∅) with
                   | Return w => Return {| se_error := None; se_value := Some w |}
                   | Throw x => Throw x
                   | Exhausted => Exhausted
                   end).
  { intros e He. unfold serializeError. rewrite He. reflexivity. }
  split; [exact HA|]. split; [exact HB|]. split; [|split; [reflexivity|split; [|split]]].
  - intros e payload. destruct (helper_isError h e) eqn:He.
    + rewrite (HA e He). intros [= <-]. reflexivity.
    + rewrite (HB e He).
      destruct (snd (serializeValue P h always_fallThrough fuel e ∅)); try discriminate.
      intros [= <-]. reflexivity.
  - intros err w. unfold parseError. simpl.
    destruct (String.eqb (name err) "TimeoutError"); reflexivity.
  - eexists. split.
    + apply HA. unfold helper_isError, isError. rewrite Htimeout. reflexivity.
    + unfold error_fields. rewrite Htimeout. reflexivity.
  - destruct (round_trip P h always_fallThrough None n fuel thrown t
                (fun y => eq_refl) Hs Hplain Hfuel) as (w & Hw & Hback).
    eexists. split.
    + rewrite (HB thrown Hplainval), Hw. reflexivity.
    + unfold parseError. simpl. rewrite Hback. reflexivity.
Qed.

Lemma error_adapter_witness :
  (exists payload,
     serializeError node thrown_values 2 (VRef 0) = Return payload
     /\ parseError node payload
        = Return (PError TimeoutErrorClass "TimeoutError" "late" "TimeoutError: late"))
  /\ (exists payload,
        serializeError node thrown_values 2 (VRef 1) = Return payload
        /\ parseError node payload
           = Return (PValue (NObject [("code", NValue (VNumber one))]))).
Proof.
  apply (error_adapter node thrown_values 2 2 0 "late" (Some "TimeoutError: late")
           (VRef 1) (NObject [("code", NValue (VNumber one))])).
  - vm_compute. reflexivity.
  - vm_compute. reflexivity.
  - vm_compute. reflexivity.
  - vm_compute. reflexivity.
  - lia.
Defined.

(** ** Concrete runs *)

Lemma handle_indirection_witness :
  (forall h', serializeValue node h' handle_for_five 1 (VRef 5) ∅
              = (∅, Return (sv_of_h 1)))
  /\ (forall value0 substitute,
        handle_for_five value0 = FallThrough substitute ->
        handle_for_five substitute = FallThrough substitute ->
        serializeValue node self_array handle_for_five 1 value0 ∅
        = serializeValue node self_array handle_for_five 1 substitute ∅)
  /\ parseSerializedValue node (Some [VNull; VString "x"]) (sv_of_h 1)
     = Return (NValue (VString "x"))
  /\ parseSerializedValue node None (sv_of_h 1) = Throw unexpected_handle.
Proof.
  apply (handle_indirection node self_array handle_for_five 0 (VRef 5) ∅ 1
           [VNull; VString "x"] (VString "x")).
  - reflexivity.
  - lia.
  - reflexivity.
Defined.

Lemma handle_out_of_bounds_witness :
  parseSerializedValue node (Some [VNull; VString "x"]) (sv_of_h 2)
  = Return (NValue VUndefined)
  /\ (forall handles w,
        parseSerializedValue node handles w = Throw unexpected_handle ->
        handles = None).
Proof.
  apply (handle_out_of_bounds node [VNull; VString "x"] 2). simpl. lia.
Defined.

Lemma malformed_rejected_witness :
  parseSerializedValue node None empty_sv = Throw unexpected_value
  /\ parseSerializedValue node (Some []) (sv_of_v "nil") = Throw unexpected_value.
Proof.
  split.
  - apply (malformed_rejected node None empty_sv); try reflexivity. discriminate.
  - apply (malformed_rejected node (Some []) (sv_of_v "nil")); try reflexivity.
    intros lit [= <-]. reflexivity.
Defined.

Example spec_example_encoded :
  serializeValue node spec_example always_fallThrough 3 (VRef 0) ∅
  = (∅, Return (sv_of_o [("a", sv_of_a [sv_of_n one; sv_of_v "NaN"; sv_of_v "-0";
                                        sv_of_s "s"]);
                         ("b", sv_of_v "undefined")])).
Proof. vm_compute. reflexivity. Qed.

Example spec_example_decoded :
  parseSerializedValue node None
    (sv_of_o [("a", sv_of_a [sv_of_n one; sv_of_v "NaN"; sv_of_v "-0"; sv_of_s "s"]);
              ("b", sv_of_v "undefined")])
  = Return (NObject [("a", NArray [NValue (VNumber one); NValue (VNumber NaN);
                                   NValue (VNumber neg_zero); NValue (VString "s")]);
                     ("b", NValue VUndefined)])
  /\ snapshot spec_example 3 (VRef 0)
     = Some (NObject [("a", NArray [NValue (VNumber one); NValue (VNumber NaN);
                                    NValue (VNumber neg_zero); NValue (VString "s")]);
                      ("b", NValue VUndefined)]).
Proof. vm_compute. split; reflexivity. Qed.

Example dated_round_trip :
  exists w,
    serializeValue node dated always_fallThrough 3 (VRef 0) ∅ = (∅, Return w)
    /\ parseSerializedValue node None w
       = Return (NArray [NDate (Some 1604318400123%Z); NRegExp "a+b" "gi";
                         NValue (VNumber pos_zero)]).
Proof.
  apply (round_trip node dated always_fallThrough None 3 3 (VRef 0)).
  - intros y. reflexivity.
  - vm_compute. reflexivity.
  - vm_compute. reflexivity.
  - lia.
Qed.

(** * Further properties of the codec *)

(** ** The shape of what the encoder returns *)

Lemma serialize_children_Return {A B} (get : A -> value)
    (put : A -> SerializedValue -> B) rec (Q : SerializedValue -> Prop)
    (children : list A) :
  (forall c vis vis' w, rec (get c) vis = (vis', Return w) -> Q w) ->
  forall visited visited' ws,
    serialize_children get put rec children visited = (visited', Return ws) ->
    Forall2 (fun c b => exists w, b = put c w /\ Q w) children ws.
Proof.
  intros Hrec. induction children as [|c rest IH]; simpl; intros visited visited' ws E.
  - injection E as _ <-. constructor.
  - destruct (rec (get c) visited) as [visited1 [w|e|]] eqn:Ec; try discriminate.
    destruct (serialize_children get put rec rest visited1) as [visited2 [ws'|e|]] eqn:Er;
      try discriminate.
    injection E as _ <-. constructor; [|eapply IH; exact Er].
    exists w. split; [reflexivity|]. eapply Hrec. exact Ec.
Qed.

Lemma encoded_number_shape (x : number) :
  number_eqb x NaN = false -> number_eqb x Infinity = false ->
  number_eqb x neg_Infinity = false -> number_eqb x neg_zero = false ->
  json_number x = true.
Proof. destruct x as [[|]|[|]| |sg m e]; simpl; intros; congruence. Qed.

Lemma serializeValue_shape (P : Platform) (h : heap)
    (handleSerializer : value -> HandleOrValue) (fuel : nat) :
  forall (x : value) (visited visited' : gset addr) (w : SerializedValue),
    serializeValue P h handleSerializer fuel x visited = (visited', Return w) ->
    single_tagged w = true.
Proof.
  induction fuel as [|fuel IH]; intros x visited visited' w; [discriminate|].
  cbn [serializeValue]. destruct (handleSerializer x) as [k|y]; [intros [= _ <-]; reflexivity|].
  destruct (visited_has visited y); [discriminate|].
  destruct y as [| |b|y|s|id|a]; try (intros [= _ <-]; reflexivity).
  - destruct (number_eqb y NaN) eqn:E1; [intros [= _ <-]; reflexivity|].
    destruct (number_eqb y Infinity) eqn:E2; [intros [= _ <-]; reflexivity|].
    destruct (number_eqb y neg_Infinity) eqn:E3; [intros [= _ <-]; reflexivity|].
    destruct (number_eqb y neg_zero) eqn:E4; [intros [= _ <-]; reflexivity|].
    intros [= _ <-]. simpl. rewrite (encoded_number_shape y E1 E2 E3 E4). reflexivity.
  - destruct (h !! a) as [[elems|props|tv|source flags|cls nm msg st|]|];
      try (intros [= _ <-]; reflexivity); try discriminate.
    + destruct (serialize_children _ _ _ elems _) as [visited1 [ws|e|]] eqn:Ec;
        try discriminate.
      intros [= _ <-].
      apply (serialize_children_Return (fun c => c) push_element _
               (fun w => single_tagged w = true)) in Ec; [|intros; eapply IH; eassumption].
      simpl. rewrite ?andb_true_r. apply forallb_forall. intros w Hw.
      apply list_elem_of_In in Hw.
      destruct (proj1 (list_elem_of_lookup ws w) Hw) as [i Hi].
      destruct (Forall2_lookup_r _ _ _ _ _ Ec Hi) as (c & _ & w' & -> & Hq). exact Hq.
    + destruct (serialize_children _ _ _ props _) as [visited1 [ws|e|]] eqn:Ec;
        try discriminate.
      intros [= _ <-].
      apply (serialize_children_Return snd push_entry _
               (fun w => single_tagged w = true)) in Ec; [|intros; eapply IH; eassumption].
      simpl. rewrite ?andb_true_r. apply forallb_forall. intros kw Hw.
      apply list_elem_of_In in Hw.
      destruct (proj1 (list_elem_of_lookup ws kw) Hw) as [i Hi].
      destruct (Forall2_lookup_r _ _ _ _ _ Ec Hi) as (c & _ & w' & -> & Hq). exact Hq.
Qed.

(** X1.  Whatever resolver is used, a value that [serializeValue]
    returns has exactly one of its nine fields set at every node of the
    tree; no [n] field carries NaN, an infinity or the negative zero,
    and every [v] field is one of the six literals. *)
Theorem encoder_output_single_tagged (P : Platform) (h : heap)
    (handleSerializer : value -> HandleOrValue) (fuel : nat) (x : value)
    (visited visited' : gset addr) (w : SerializedValue) :
  serializeValue P h handleSerializer fuel x visited = (visited', Return w) ->
  single_tagged w = true.
Proof. apply serializeValue_shape. Qed.

Lemma encoder_output_single_tagged_witness :
  single_tagged (sv_of_o [("a", sv_of_a [sv_of_n one; sv_of_v "NaN"; sv_of_v "-0";
                                         sv_of_s "s"]);
                          ("b", sv_of_v "undefined")]) = true.
Proof.
  apply (encoder_output_single_tagged node spec_example always_fallThrough 3 (VRef 0) ∅ ∅).
  vm_compute. reflexivity.
Defined.

(** ** Decoding what the encoder returns *)






(** ** Cycle detection is exact *)

Lemma serialize_children_more_stack {A B} (get : A -> value)
    (put : A -> SerializedValue -> B) rec1 rec2 (children : list A) :
  (forall c vis, snd (rec1 (get c) vis) <> Exhausted ->
                 rec2 (get c) vis = rec1 (get c) vis) ->
  forall visited,
    snd (serialize_children get put rec1 children visited) <> Exhausted ->
    serialize_children get put rec2 children visited
    = serialize_children get put rec1 children visited.
Proof.
  intros Hrec. induction children as [|c rest IH]; intros visited; simpl; [reflexivity|].
  pose proof (Hrec c visited) as Hc.
  destruct (rec1 (get c) visited) as [visited1 [w|e|]] eqn:E1; simpl in Hc.
  - rewrite Hc by discriminate. intros Hloop.
    rewrite IH; [reflexivity|].
    destruct (serialize_children get put rec1 rest visited1) as [visited2 [ws|e|]];
      simpl in *; congruence.
  - rewrite Hc by discriminate. reflexivity.
  - simpl. congruence.
Qed.

(** A call that does not run out of stack ends the same way on every
    deeper stack. *)
Lemma serializeValue_more_stack (P : Platform) (h : heap)
    (handleSerializer : value -> HandleOrValue) (fuel : nat) :
  forall (x : value) (visited : gset addr),
    snd (serializeValue P h handleSerializer fuel x visited) <> Exhausted ->
    forall fuel', fuel <= fuel' ->
      serializeValue P h handleSerializer fuel' x visited
      = serializeValue P h handleSerializer fuel x visited.
Proof.
  induction fuel as [|fuel IH]; intros x visited Hx fuel' Hle; [simpl in Hx; congruence|].
  destruct fuel' as [|fuel']; [lia|]. assert (Hle' : fuel <= fuel') by lia.
  revert Hx. cbn [serializeValue].
  destruct (handleSerializer x) as [k|y]; [reflexivity|].
  destruct (visited_has visited y); [reflexivity|].
  destruct y as [| |b|y|s|id|a]; try reflexivity.
  destruct (h !! a) as [[elems|props|tv|source flags|cls nm msg st|]|]; try reflexivity.
  - intros Hx.
    rewrite (serialize_children_more_stack (fun c => c) push_element
               (serializeValue P h handleSerializer fuel)
               (serializeValue P h handleSerializer fuel') elems); [reflexivity| |].
    + intros c vis Hc. apply IH; assumption.
    + destruct (serialize_children _ _ _ elems _) as [visited1 [ws|e|]];
        simpl in *; congruence.
  - intros Hx.
    rewrite (serialize_children_more_stack snd push_entry
               (serializeValue P h handleSerializer fuel)
               (serializeValue P h handleSerializer fuel') props); [reflexivity| |].
    + intros c vis Hc. apply IH; assumption.
    + destruct (serialize_children _ _ _ props _) as [visited1 [ws|e|]];
        simpl in *; congruence.
Qed.

Lemma serialize_children_Return_each {A B} (get : A -> value)
    (put : A -> SerializedValue -> B) rec (children : list A) :
  forall visited visited' ws,
    serialize_children get put rec children visited = (visited', Return ws) ->
    Forall (fun c => exists vis vis' w, rec (get c) vis = (vis', Return w)) children.
Proof.
  induction children as [|c rest IH]; simpl; intros visited visited' ws E; [constructor|].
  destruct (rec (get c) visited) as [visited1 [w|e|]] eqn:Ec; try discriminate.
  destruct (serialize_children get put rec rest visited1) as [visited2 [ws'|e|]] eqn:Er;
    try discriminate.
  constructor; [eauto|eapply IH; exact Er].
Qed.

(** What the encoder returns on, it can be observed completely. *)
Lemma serialize_Return_snapshot (P : Platform) (h : heap)
    (handleSerializer : value -> HandleOrValue) (fuel : nat) :
  (forall y, handleSerializer y = FallThrough y) ->
  forall (x : value) (visited visited' : gset addr) (w : SerializedValue),
    serializeValue P h handleSerializer fuel x visited = (visited', Return w) ->
    is_Some (snapshot h fuel x).
Proof.
  intros Hpass. induction fuel as [|fuel IH]; intros x visited visited' w; [discriminate|].
  cbn [serializeValue snapshot]. rewrite Hpass.
  destruct (visited_has visited x); [discriminate|].
  destruct x as [| |b|y|s|id|a]; try (intros _; eexists; reflexivity).
  destruct (h !! a) as [[elems|props|tv|source flags|cls nm msg st|]|];
    try (intros _; eexists; reflexivity); try discriminate.
  - destruct (serialize_children _ _ _ elems _) as [visited1 [ws|e|]] eqn:Ec;
      try discriminate.
    intros _. apply serialize_children_Return_each in Ec.
    apply fmap_is_Some, mapM_is_Some.
    eapply Forall_impl; [exact Ec|]. intros c (vis & vis' & w' & Hc). simpl.
    eapply IH. exact Hc.
  - destruct (serialize_children _ _ _ props _) as [visited1 [ws|e|]] eqn:Ec;
      try discriminate.
    intros _. apply serialize_children_Return_each in Ec.
    apply fmap_is_Some, mapM_is_Some.
    eapply Forall_impl; [exact Ec|]. intros [k c] (vis & vis' & w' & Hc). simpl in *.
    apply fmap_is_Some. eapply IH. exact Hc.
Qed.

(** X3.  With a pass-through resolver the circular-structure error is
    raised only for a value whose structure cannot be read off to any
    finite depth.  In a heap whose objects the encoder all accepts, and
    with a stack deeper than the number of objects, the converse holds
    too: the encoder returns exactly on the acyclic values and raises
    the circular-structure error exactly on the others. *)
Theorem cycle_detection_exact (P : Platform) (h : heap)
    (handleSerializer : value -> HandleOrValue) (fuel : nat) (x : value) :
  (forall y, handleSerializer y = FallThrough y) ->
  (snd (serializeValue P h handleSerializer fuel x ∅) = Throw circular_structure ->
   forall n, snapshot h n x = None)
  /\ (encodable_heap h = true -> resolves h x = true -> size (dom h) < fuel ->
      (is_Return (snd (serializeValue P h handleSerializer fuel x ∅)) = true
       <-> exists n, is_Some (snapshot h n x))
      /\ (snd (serializeValue P h handleSerializer fuel x ∅) = Throw circular_structure
          <-> forall n, snapshot h n x = None)).
Proof.
  intros Hpass.
  assert (Hdeep : forall n t, snapshot h n x = Some t ->
            snd (serializeValue P h handleSerializer fuel x ∅) <> Exhausted ->
            snd (serializeValue P h handleSerializer fuel x ∅) = encode_tree P h t).
  { intros n t Hs Hne.
    rewrite <- (serializeValue_more_stack P h handleSerializer fuel x ∅ Hne
                  (Nat.max n fuel) (Nat.le_max_r _ _)).
    apply (serialize_acyclic P h handleSerializer Hpass n); [exact Hs| |apply Nat.le_max_l].
    intros a Ha. set_solver. }
  assert (Hfalse_positive :
            snd (serializeValue P h handleSerializer fuel x ∅) = Throw circular_structure ->
            forall n, snapshot h n x = None).
  { intros Hc n. destruct (snapshot h n x) as [t|] eqn:Hs; [|reflexivity].
    pose proof (Hdeep n t Hs ltac:(rewrite Hc; discriminate)) as Ht.
    pose proof (encode_tree_outcome P h t) as Hout.
    rewrite <- Ht, Hc in Hout. simpl in Hout. discriminate. }
  split; [exact Hfalse_positive|].
  intros Hheap Hres Hsize.
  pose proof (serializeValue_terminates P h handleSerializer Hpass fuel x ∅
                ltac:(replace (dom h ∖ ∅) with (dom h) by set_solver; exact Hsize)) as Hterm.
  pose proof (serializeValue_only_circular P h handleSerializer Hpass fuel Hheap x ∅ Hres)
    as Hcirc.
  assert (Hreturns : (exists n, is_Some (snapshot h n x)) ->
            is_Return (snd (serializeValue P h handleSerializer fuel x ∅)) = true).
  { intros (n & t & Hs).
    pose proof (Hdeep n t Hs) as Ht. pose proof (encode_tree_outcome P h t) as Hout.
    destruct (snd (serializeValue P h handleSerializer fuel x ∅)) as [w|e|];
      simpl in *; [reflexivity| |contradiction].
    rewrite <- Ht in Hout by discriminate. simpl in Hout.
    rewrite Hcirc in Hout. discriminate. }
  split; split.
  - intros Hret. exists fuel.
    destruct (serializeValue P h handleSerializer fuel x ∅) as [visited' [w|e|]] eqn:E;
      try discriminate.
    eapply serialize_Return_snapshot; [exact Hpass|exact E].
  - exact Hreturns.
  - exact Hfalse_positive.
  - intros Hnone.
    destruct (serializeValue P h handleSerializer fuel x ∅) as [visited' [w|e|]] eqn:E;
      simpl in *; [|congruence|contradiction].
    pose proof (serialize_Return_snapshot P h handleSerializer fuel Hpass x ∅ visited' w E)
      as [t Ht].
    rewrite Hnone in Ht. discriminate.
Qed.

Lemma cycle_detection_exact_witness :
  (is_Return (snd (serializeValue node shared_pair always_fallThrough 3 (VRef 0) ∅)) = true
   <-> exists n, is_Some (snapshot shared_pair n (VRef 0)))
  /\ (snd (serializeValue node shared_pair always_fallThrough 3 (VRef 0) ∅)
      = Throw circular_structure
      <-> forall n, snapshot shared_pair n (VRef 0) = None).
Proof.
  apply (cycle_detection_exact node shared_pair always_fallThrough 3 (VRef 0)).
  - intros y. reflexivity.
  - vm_compute. reflexivity.
  - vm_compute. reflexivity.
  - vm_compute. lia.
Defined.

(** ** Duplicate keys on the wire *)

Lemma get_prop_cons {A} (k k' : string) (x : A) (props : list (string * A)) :
  get_prop k ((k', x) :: props)
  = if String.eqb k' k then Some x else get_prop k props.
Proof. unfold get_prop. simpl. destruct (String.eqb k' k); reflexivity. Qed.

Lemma get_prop_app {A} (k : string) (l1 l2 : list (string * A)) :
  get_prop k (l1 ++ l2)%list
  = match get_prop k l1 with
    | Some x => Some x
    | None => get_prop k l2
    end.
Proof.
  induction l1 as [|[k' x] l1 IH]; [reflexivity|].
  rewrite <- app_comm_cons, !get_prop_cons. destruct (String.eqb k' k); [reflexivity|exact IH].
Qed.

Lemma get_prop_replace {A} (k k' : string) (x : A) (props : list (string * A)) :
  has_prop k props = true ->
  get_prop k' (replace_prop k x props)
  = if String.eqb k k' then Some x else get_prop k' props.
Proof.
  induction props as [|[k1 x1] props IH]; simpl; [discriminate|].
  destruct (String.eqb k1 k) eqn:E1; simpl.
  - intros _. apply String.eqb_eq in E1. subst k1. rewrite !get_prop_cons.
    destruct (String.eqb k k'); reflexivity.
  - intros Hhas. rewrite !get_prop_cons, IH by exact Hhas.
    destruct (String.eqb k1 k') eqn:E2; [|reflexivity].
    apply String.eqb_eq in E2. subst k1. rewrite String.eqb_sym, E1. reflexivity.
Qed.

Lemma get_prop_insert {A} (k k' : string) (x : A) (props : list (string * A)) :
  has_prop k props = false ->
  get_prop k' (insert_prop k x props)
  = if String.eqb k k' then Some x else get_prop k' props.
Proof.
  induction props as [|[k1 x1] props IH]; simpl.
  - intros _. rewrite get_prop_cons. reflexivity.
  - intros Hhas. apply orb_false_iff in Hhas as [E1 Hhas].
    destruct (key_before k k1).
    + rewrite get_prop_cons. reflexivity.
    + rewrite !get_prop_cons, IH by exact Hhas.
      destruct (String.eqb k1 k') eqn:E2; [|reflexivity].
      apply String.eqb_eq in E2. subst k1. rewrite String.eqb_sym, E1. reflexivity.
Qed.

Lemma get_prop_assign {A} (k k' : string) (x : A) (props : list (string * A)) :
  get_prop k' (assign_prop k x props)
  = if String.eqb k "__proto__" then get_prop k' props
    else if String.eqb k k' then Some x else get_prop k' props.
Proof.
  unfold assign_prop. destruct (String.eqb k "__proto__"); [reflexivity|].
  destruct (has_prop k props) eqn:Hhas;
    [apply get_prop_replace|apply get_prop_insert]; exact Hhas.
Qed.

Lemma last_entry_cons {A} (k k' : string) (x : A) (entries : list (string * A)) :
  last_entry k ((k', x) :: entries)
  = match last_entry k entries with
    | Some y => Some y
    | None => if String.eqb k' k then Some x else None
    end.
Proof.
  unfold last_entry. simpl rev. rewrite get_prop_app, get_prop_cons.
  destruct (get_prop k (rev entries)); [reflexivity|].
  destruct (String.eqb k' k); reflexivity.
Qed.

Lemma assign_all_get_prop {A B} (f : A -> outcome B) (k : string)
    (entries : list (string * A)) :
  forall (result props : list (string * B)),
    assign_all f entries result = Return props ->
    get_prop k props
    = if String.eqb k "__proto__" then get_prop k result
      else match last_entry k entries with
           | Some x => match f x with Return y => Some y | _ => None end
           | None => get_prop k result
           end.
Proof.
  induction entries as [|[k1 x] entries IH]; intros result props; simpl.
  - intros [= <-]. destruct (String.eqb k "__proto__"); reflexivity.
  - destruct (f x) as [y|e|] eqn:Ex; try discriminate.
    intros E. rewrite (IH _ _ E), last_entry_cons, get_prop_assign.
    destruct (String.eqb k "__proto__") eqn:Ek.
    + apply String.eqb_eq in Ek. subst k.
      destruct (String.eqb k1 "__proto__"); reflexivity.
    + destruct (last_entry k entries); [reflexivity|].
      destruct (String.eqb k1 k) eqn:E1.
      * apply String.eqb_eq in E1. subst k1. rewrite Ek, Ex. reflexivity.
      * destruct (String.eqb k1 "__proto__"); reflexivity.
Qed.



(** * Headers and environment variables *)

Lemma fold_assign_prop_own_order {A} (rest : list (string * A)) :
  forall done,
    own_key_order (List.map fst (done ++ rest)%list) = true ->
    has_prop "__proto__" rest = false ->
    fold_left (fun result nv => assign_prop (fst nv) (snd nv) result) rest done
    = (done ++ rest)%list.
Proof.
  induction rest as [|[k x] rest IH]; intros done Hord Hproto; simpl.
  - rewrite app_nil_r. reflexivity.
  - simpl in Hproto. apply orb_false_iff in Hproto as [Hk Hproto].
    rewrite (assign_prop_last done k x rest Hord Hk).
    rewrite IH; [rewrite <- app_assoc; reflexivity|rewrite <- app_assoc; exact Hord|exact Hproto].
Qed.

Lemma assign_each_own_order {A} (entries : list (string * A)) :
  own_key_order (List.map fst entries) = true ->
  has_prop "__proto__" entries = false ->
  assign_each entries = entries.
Proof. intros Hord Hproto. apply (fold_assign_prop_own_order entries []); assumption. Qed.

Lemma assign_all_Return_fold {A} (entries : list (string * A)) :
  forall result,
    assign_all Return entries result
    = Return (fold_left (fun result nv => assign_prop (fst nv) (snd nv) result) entries result).
Proof.
  induction entries as [|[k x] entries IH]; intros result; [reflexivity|].
  rewrite assign_all_cons. apply IH.
Qed.

Lemma assign_each_get_prop {A} (k : string) (entries : list (string * A)) :
  get_prop k (assign_each entries)
  = if String.eqb k "__proto__" then None else last_entry k entries.
Proof.
  pose proof (assign_all_get_prop Return k entries [] (assign_each entries)
                (assign_all_Return_fold entries [])) as H.
  rewrite H. destruct (String.eqb k "__proto__"); [reflexivity|].
  destruct (last_entry k entries); reflexivity.
Qed.

(** Dropping entries keeps the own-key order. *)
Lemma own_key_order_omap {A B} (g : string * A -> option (string * B))
    (l : list (string * A)) :
  (forall x y, g x = Some y -> fst y = fst x) ->
  own_key_order (List.map fst l) = true ->
  own_key_order (List.map fst (omap g l)) = true.
Proof.
  intros Hg. induction l as [|x l IH]; simpl; [reflexivity|].
  intros H. apply andb_true_iff in H as [Hx Hl]. specialize (IH Hl).
  destruct (g x) as [y|] eqn:Ey; [|exact IH].
  simpl. apply andb_true_iff. split; [|exact IH]. rewrite (Hg x y Ey).
  rewrite forallb_forall in Hx |- *. intros k Hk. apply Hx.
  apply in_map_iff in Hk as (z & <- & Hz).
  apply list_elem_of_In, list_elem_of_omap in Hz as (z0 & Hz0 & Ez).
  rewrite (Hg z0 z Ez). apply in_map. apply list_elem_of_In. exact Hz0.
Qed.

Lemma has_prop_omap {A B} (g : string * A -> option (string * B)) (k : string)
    (l : list (string * A)) :
  (forall x y, g x = Some y -> fst y = fst x) ->
  has_prop k l = false ->
  has_prop k (omap g l) = false.
Proof.
  intros Hg. induction l as [|x l IH]; simpl; [reflexivity|].
  intros H. apply orb_false_iff in H as [Hx Hl].
  destruct (g x) as [y|] eqn:Ey; [|exact (IH Hl)].
  simpl. rewrite (Hg x y Ey), Hx. exact (IH Hl).
Qed.

Lemma headersObjectToArray_as_object (h : heap) (props : list (string * string)) :
  headersObjectToArray h (as_object props) = Return props.
Proof.
  unfold as_object. induction props as [|[k s] props IH]; [reflexivity|].
  cbn [List.map headersObjectToArray fst snd Object_is]. rewrite IH. reflexivity.
Qed.

(** X5.  [headersObjectToArray] fails exactly when some header holds a
    value that is neither [undefined] nor a string, with the message
    that names the first such header and the [typeof] its value;
    otherwise it lists the string-valued headers in order and skips the
    [undefined] ones. *)
Theorem headersObjectToArray_outcome (h : heap) (headers : list (string * value)) :
  headersObjectToArray h headers
  = match first_non_string headers with
    | Some (name, v) => Throw (header_not_string h name v)
    | None => Return (string_props headers)
    end.
Proof.
  unfold first_non_string, string_props.
  induction headers as [|[name v] headers IH]; [reflexivity|].
  cbn [headersObjectToArray List.find omap list_omap snd fst]. rewrite IH.
  destruct v as [| |b|x|s|id|a]; try reflexivity.
  simpl.
  destruct (List.find _ headers) as [[name' v']|]; reflexivity.
Qed.

(** X6.  An object of headers whose values are strings or [undefined]
    goes through [headersObjectToArray] and [headersArrayToObject] and
    comes back as itself without its [undefined] properties, provided
    no header is named [__proto__]. *)
Theorem headers_object_round_trip (h : heap) (headers : list (string * value)) :
  own_key_order (List.map fst headers) = true ->
  has_prop "__proto__" headers = false ->
  first_non_string headers = None ->
  exists array,
    headersObjectToArray h headers = Return array
    /\ as_object (headersArrayToObject array)
       = List.filter (fun nv => negb (Object_is (snd nv) VUndefined)) headers.
Proof.
  intros Hord Hproto Hnone. exists (string_props headers).
  split; [rewrite headersObjectToArray_outcome, Hnone; reflexivity|].
  unfold headersArrayToObject.
  rewrite assign_each_own_order.
  - clear Hord Hproto. unfold first_non_string in Hnone.
    induction headers as [|[name v] headers IH]; [reflexivity|].
    simpl in Hnone.
    destruct v as [| |b|x|s|id|a]; simpl in *; try discriminate;
      rewrite <- IH by exact Hnone; reflexivity.
  - apply own_key_order_omap; [|exact Hord].
    intros [k v] y. simpl. destruct v; try discriminate. intros [= <-]. reflexivity.
  - apply has_prop_omap; [|exact Hproto].
    intros [k v] y. simpl. destruct v; try discriminate. intros [= <-]. reflexivity.
Qed.

Lemma headers_object_round_trip_witness :
  exists array,
    headersObjectToArray ∅ [("1", VString "one"); ("accept", VString "*/*");
                            ("x-skip", VUndefined); ("Host", VString "h")]
    = Return array
    /\ as_object (headersArrayToObject array)
       = [("1", VString "one"); ("accept", VString "*/*"); ("Host", VString "h")].
Proof.
  apply (headers_object_round_trip ∅
           [("1", VString "one"); ("accept", VString "*/*");
            ("x-skip", VUndefined); ("Host", VString "h")]);
    vm_compute; reflexivity.
Defined.

Lemma has_prop_In {A} (k : string) (l : list (string * A)) :
  has_prop k l = true <-> In k (List.map fst l).
Proof.
  unfold has_prop. rewrite existsb_exists, in_map_iff. split.
  - intros (x & Hx & E). apply String.eqb_eq in E. eauto.
  - intros (x & E & Hx). exists x. split; [exact Hx|]. apply String.eqb_eq. exact E.
Qed.

Lemma replace_prop_keys {A} (k : string) (x : A) (props : list (string * A)) :
  List.map fst (replace_prop k x props) = List.map fst props.
Proof.
  induction props as [|[k1 x1] props IH]; [reflexivity|]. simpl.
  destruct (String.eqb k1 k) eqn:E; simpl; [|rewrite IH; reflexivity].
  apply String.eqb_eq in E. subst k1. reflexivity.
Qed.

Lemma insert_prop_keys {A} (k : string) (x : A) (props : list (string * A)) :
  List.map fst (insert_prop k x props) ≡ₚ k :: List.map fst props.
Proof.
  induction props as [|[k1 x1] props IH]; [reflexivity|]. simpl.
  destruct (key_before k k1); simpl; [reflexivity|].
  rewrite IH. apply Permutation_swap.
Qed.

Lemma assign_prop_NoDup {A} (k : string) (x : A) (props : list (string * A)) :
  NoDup (List.map fst props) -> NoDup (List.map fst (assign_prop k x props)).
Proof.
  intros Hnd. unfold assign_prop. destruct (String.eqb k "__proto__"); [exact Hnd|].
  destruct (has_prop k props) eqn:Hhas.
  - rewrite replace_prop_keys. exact Hnd.
  - rewrite insert_prop_keys. apply NoDup_cons. split; [|exact Hnd].
    intros Hin. apply list_elem_of_In, has_prop_In in Hin. congruence.
Qed.

Lemma assign_each_NoDup {A} (entries : list (string * A)) :
  NoDup (List.map fst (assign_each entries)).
Proof.
  unfold assign_each.
  assert (H : forall result : list (string * A),
            NoDup (List.map fst result) ->
            NoDup (List.map fst (fold_left (fun result nv =>
                                              assign_prop (fst nv) (snd nv) result)
                                           entries result))).
  { induction entries as [|[k x] entries IH]; intros result Hnd; [exact Hnd|].
    simpl. apply IH, assign_prop_NoDup, Hnd. }
  apply H. constructor.
Qed.

(** X7.  [headersArrayToObject] builds an object in which each name
    occurs once, with the value of the last array entry of that name,
    and drops an entry named [__proto__]; [headersObjectToArray] on its
    result never fails and lists it as it is. *)
Theorem headers_array_last_wins (h : heap) (array : list (string * string)) (k : string) :
  headersObjectToArray h (as_object (headersArrayToObject array))
  = Return (headersArrayToObject array)
  /\ NoDup (List.map fst (headersArrayToObject array))
  /\ get_prop k (headersArrayToObject array)
     = (if String.eqb k "__proto__" then None else last_entry k array).
Proof.
  split; [apply headersObjectToArray_as_object|].
  split; [apply assign_each_NoDup|apply assign_each_get_prop].
Qed.


Lemma envObjectToArray_names (String_other : heap -> value -> outcome string) (h : heap)
    (env : list (string * value)) :
  forall array,
    envObjectToArray String_other h env = Return array ->
    (forall k, In k (List.map fst array) -> In k (List.map fst env))
    /\ (own_key_order (List.map fst env) = true ->
        own_key_order (List.map fst array) = true).
Proof.
  induction env as [|[name v] env IH]; intros array; cbn [envObjectToArray].
  - intros [= <-]. split; [auto|reflexivity].
  - destruct (Object_is v VUndefined).
    + intros E. destruct (IH array E) as [Hin Hord]. split.
      * intros k Hk. right. apply Hin, Hk.
      * simpl. intros H. apply andb_true_iff in H as [_ H]. apply Hord, H.
    + destruct (String_ String_other h v) as [s|e|]; try discriminate.
      destruct (envObjectToArray String_other h env) as [result|e|]; try discriminate.
      intros [= <-]. destruct (IH result eq_refl) as [Hin Hord]. split.
      * simpl. intros k [Hk|Hk]; [left; exact Hk|right; apply Hin, Hk].
      * simpl. intros H. apply andb_true_iff in H as [Hx H].
        apply andb_true_iff. split; [|apply Hord, H].
        rewrite forallb_forall in Hx |- *. intros k Hk. apply Hx, Hin, Hk.
Qed.

Lemma envObjectToArray_as_object (String_other : heap -> value -> outcome string)
    (h : heap) (props : list (string * string)) :
  envObjectToArray String_other h (as_object props) = Return props.
Proof.
  unfold as_object. induction props as [|[k s] props IH]; [reflexivity|].
  cbn [List.map envObjectToArray fst snd Object_is String_]. rewrite IH. reflexivity.
Qed.

(** X8.  Whatever [String] does on numbers and objects: when
    [envObjectToArray] has turned an environment into an array, turning
    that array into an object with [envArrayToObject] and the object
    into an array again gives the same array, provided no variable is
    named [__proto__]. *)
Theorem env_normalisation_stable (String_other : heap -> value -> outcome string)
    (h : heap) (env : list (string * value)) (array : list (string * string)) :
  own_key_order (List.map fst env) = true ->
  has_prop "__proto__" env = false ->
  envObjectToArray String_other h env = Return array ->
  envArrayToObject array = array
  /\ envObjectToArray String_other h (as_object (envArrayToObject array)) = Return array.
Proof.
  intros Hord Hproto E.
  destruct (envObjectToArray_names String_other h env array E) as [Hin Hord'].
  assert (Hid : envArrayToObject array = array).
  { apply assign_each_own_order; [apply Hord', Hord|].
    destruct (has_prop "__proto__" array) eqn:Hp; [|reflexivity].
    apply has_prop_In, Hin, has_prop_In in Hp. congruence. }
  split; [exact Hid|]. rewrite Hid. apply envObjectToArray_as_object.
Qed.

Lemma env_normalisation_stable_witness :
  envArrayToObject [("0", "zero"); ("DEBUG", "true"); ("HOME", "/root")]
  = [("0", "zero"); ("DEBUG", "true"); ("HOME", "/root")]
  /\ envObjectToArray (fun _ _ => Throw (Error "not converted")) ∅
       (as_object (envArrayToObject [("0", "zero"); ("DEBUG", "true"); ("HOME", "/root")]))
     = Return [("0", "zero"); ("DEBUG", "true"); ("HOME", "/root")].
Proof.
  apply (env_normalisation_stable (fun _ _ => Throw (Error "not converted")) ∅
           [("0", VString "zero"); ("DEBUG", VBool true); ("UNSET", VUndefined);
            ("HOME", VString "/root")]);
    vm_compute; reflexivity.
Defined.

(** * Accessibility nodes *)

Lemma flag_round_trip (yes no : string) (x : value) :
  String.eqb no yes = false ->
  is_flag_word yes no x = false ->
  flag_from_protocol yes no (flag_to_protocol yes no x) = x.
Proof.
  unfold is_flag_word, flag_from_protocol, flag_to_protocol.
  intros Hwords H. apply orb_false_iff in H as [Hy Hn].
  destruct x as [| |[|]|n|s|id|a]; simpl in *;
    rewrite ?String.eqb_refl, ?Hwords; try reflexivity.
  - destruct n; reflexivity.
  - rewrite Hy, Hn. reflexivity.
Qed.

Lemma flag_round_trip_back (yes no : string) (x : value) :
  is_boolean x = false ->
  flag_to_protocol yes no (flag_from_protocol yes no x) = x.
Proof.
  unfold is_boolean, flag_from_protocol, flag_to_protocol.
  destruct x as [| |[|]|n|s|id|a]; simpl; try discriminate; try reflexivity.
  - destruct n; reflexivity.
  - intros _. destruct (String.eqb s yes) eqn:E1.
    { apply String.eqb_eq in E1. subst s. reflexivity. }
    destruct (String.eqb s no) eqn:E2; [|reflexivity].
    apply String.eqb_eq in E2. subst s. reflexivity.
Qed.

Lemma flag_to_protocol_not_boolean (yes no : string) (x : value) :
  is_boolean (flag_to_protocol yes no x) = false.
Proof.
  unfold is_boolean, flag_to_protocol.
  destruct x as [| |[|]|n|s|id|a]; try reflexivity. destruct n; reflexivity.
Qed.

Lemma map_id_on {A} (f : A -> A) (l : list A) :
  Forall (fun x => f x = x) l -> List.map f l = l.
Proof. induction 1 as [|x l Hx _ IH]; simpl; [reflexivity|]. rewrite Hx, IH. reflexivity. Qed.

(** X9.  [axNodeFromProtocol] undoes [axNodeToProtocol] on every node
    whose value, here and in all descendants, is a number, a string or
    [undefined] and whose [checked] and [pressed] are not already the
    protocol's words 'checked', 'unchecked', 'pressed', 'released'. *)
Theorem axNode_round_trip (axNode : SerializedAXNode) :
  ax_distinct axNode = true ->
  axNodeFromProtocol (axNodeToProtocol axNode) = axNode.
Proof.
  induction axNode as [rest value checked pressed children IH]
    using SerializedAXNode_nested_ind.
  cbn [ax_distinct axNodeToProtocol axNodeFromProtocol].
  rewrite !andb_true_iff. intros [[[Hv Hc] Hp] Hch].
  apply negb_true_iff in Hc, Hp.
  rewrite (flag_round_trip "checked" "unchecked" checked eq_refl Hc),
    (flag_round_trip "pressed" "released" pressed eq_refl Hp).
  assert (Hvalue : (if negb (strict_equal (match value with VNumber _ => value
                                                          | _ => VUndefined end) VUndefined)
                    then match value with VNumber _ => value | _ => VUndefined end
                    else match value with VString _ => value | _ => VUndefined end) = value).
  { destruct value as [| |b|n|s|id|a]; try discriminate; try reflexivity.
    destruct n; reflexivity. }
  rewrite Hvalue. f_equal.
  destruct children as [nodes|]; [|reflexivity].
  f_equal. rewrite map_map. apply map_id_on.
  specialize (IH nodes eq_refl). rewrite forallb_forall in Hch.
  apply Forall_forall. intros x Hx.
  apply (proj1 (Forall_forall _ _) IH x Hx), Hch, list_elem_of_In, Hx.
Qed.

(** X10.  What [axNodeToProtocol] returns has, at every node, a
    [valueNumber] that is a number or [undefined], a [valueString] that
    is a string or [undefined], never both set, and no boolean left in
    [checked] or [pressed]. *)
Theorem axNodeToProtocol_distinct (axNode : SerializedAXNode) :
  protocol_distinct (axNodeToProtocol axNode) = true.
Proof.
  induction axNode as [rest value checked pressed children IH]
    using SerializedAXNode_nested_ind.
  cbn [protocol_distinct axNodeToProtocol].
  rewrite !flag_to_protocol_not_boolean. rewrite !andb_true_iff. repeat split.
  - destruct value; reflexivity.
  - destruct children as [nodes|]; [|reflexivity].
    rewrite forallb_forall. intros p Hp. apply in_map_iff in Hp as (x & <- & Hx).
    apply (proj1 (Forall_forall _ _) (IH nodes eq_refl) x), list_elem_of_In, Hx.
Qed.

(** X11.  [axNodeToProtocol] undoes [axNodeFromProtocol] on every
    protocol node that, here and in all descendants, has a number or
    nothing as [valueNumber], a string or nothing as [valueString], not
    both, and no boolean in [checked] or [pressed]. *)
Theorem axNode_round_trip_back (axNode : AXNode) :
  protocol_distinct axNode = true ->
  axNodeToProtocol (axNodeFromProtocol axNode) = axNode.
Proof.
  induction axNode as [rest valueNumber valueString checked pressed children IH]
    using AXNode_nested_ind.
  cbn [protocol_distinct axNodeToProtocol axNodeFromProtocol].
  rewrite !andb_true_iff. intros [[[Hv Hc] Hp] Hch].
  apply negb_true_iff in Hc, Hp.
  rewrite (flag_round_trip_back _ _ _ Hc), (flag_round_trip_back _ _ _ Hp).
  assert (Hvalue :
    match (if negb (strict_equal valueNumber VUndefined) then valueNumber else valueString)
    with VNumber _ => (if negb (strict_equal valueNumber VUndefined)
                       then valueNumber else valueString)
       | _ => VUndefined end = valueNumber
    /\ match (if negb (strict_equal valueNumber VUndefined) then valueNumber else valueString)
       with VString _ => (if negb (strict_equal valueNumber VUndefined)
                          then valueNumber else valueString)
          | _ => VUndefined end = valueString).
  { destruct valueNumber as [| |b|n|s|id|a]; try discriminate;
      destruct valueString as [| |b'|n'|s'|id'|a']; try discriminate;
      try (split; reflexivity).
    destruct n; split; reflexivity. }
  destruct Hvalue as [-> ->]. f_equal.
  destruct children as [nodes|]; [|reflexivity].
  f_equal. rewrite map_map. apply map_id_on.
  specialize (IH nodes eq_refl). rewrite forallb_forall in Hch.
  apply Forall_forall. intros x Hx.
  apply (proj1 (Forall_forall _ _) IH x Hx), Hch, list_elem_of_In, Hx.
Qed.

Lemma axNode_round_trip_witness :
  axNodeFromProtocol (axNodeToProtocol checkbox_tree) = checkbox_tree.
Proof. apply (axNode_round_trip checkbox_tree). vm_compute. reflexivity. Defined.

Lemma axNode_round_trip_back_witness :
  axNodeToProtocol (axNodeFromProtocol (axNodeToProtocol checkbox_tree))
  = axNodeToProtocol checkbox_tree.
Proof.
  apply (axNode_round_trip_back (axNodeToProtocol checkbox_tree)).
  vm_compute. reflexivity.
Defined.

(** * Round trip with handles *)

Lemma resolved_view_mono (P : Platform) (h : heap) (view1 view2 : value -> option native)
    (y : value) (t : native) :
  (forall c u, view1 c = Some u -> view2 c = Some u) ->
  resolved_view P h view1 y = Some t -> resolved_view P h view2 y = Some t.
Proof.
  intros Hview. unfold resolved_view.
  destruct y as [| |b|n|s|id|a]; try exact (fun H => H).
  destruct (h !! a) as [[elems|props|[tv|]|source flags|cls nm msg st|]|];
    try exact (fun H => H).
  - intros Hs. apply fmap_Some in Hs as (ts & Hts & ->). apply fmap_Some.
    exists ts. split; [|reflexivity]. apply mapM_Some in Hts. apply mapM_Some.
    eapply Forall2_impl; [exact Hts|]. intros c u Hc. apply Hview, Hc.
  - destruct (own_key_order _ && _); [|discriminate].
    intros Hs. apply fmap_Some in Hs as (ts & Hts & ->). apply fmap_Some.
    exists ts. split; [|reflexivity]. apply mapM_Some in Hts. apply mapM_Some.
    eapply Forall2_impl; [exact Hts|]. intros [k c] ku Hc. simpl in *.
    apply fmap_Some in Hc as (u & Hu & ->). apply fmap_Some. exists u.
    split; [apply Hview, Hu|reflexivity].
Qed.

Lemma handle_view_mono (P : Platform) (h : heap) (hs : value -> HandleOrValue)
    (n m : nat) (x : value) (t : native) :
  handle_view P h hs n x = Some t -> n <= m -> handle_view P h hs m x = Some t.
Proof.
  revert m x t. induction n as [|n IH]; intros m x t; [discriminate|].
  intros Hs Hle. destruct m as [|m]; [lia|]. cbn [handle_view] in *.
  destruct (hs x) as [k|y]; [exact Hs|].
  eapply resolved_view_mono; [|exact Hs]. intros c u Hc. apply IH; [exact Hc|lia].
Qed.

Lemma elements_round_trip rec (decode : SerializedValue -> outcome native)
    (visited : gset addr) (elems : list value) (ts : list native) :
  Forall2 (fun c t => exists w, rec c visited = (visited, Return w)
                                /\ decode w = Return t) elems ts ->
  exists ws,
    serialize_children (fun c => c) push_element rec elems visited = (visited, Return ws)
    /\ map_outcome decode ws = Return ts.
Proof.
  induction 1 as [|c t elems ts (w & Hw & Hback) _ (ws & Hws & Hbacks)]; simpl.
  - exists []. split; reflexivity.
  - exists (w :: ws). rewrite Hw, Hws. split; [reflexivity|].
    simpl. rewrite Hback, Hbacks. reflexivity.
Qed.

Lemma entries_round_trip rec (decode : SerializedValue -> outcome native)
    (visited : gset addr) (props : list (string * value)) (ts : list (string * native)) :
  Forall2 (fun c t => fst t = fst c
                      /\ exists w, rec (snd c) visited = (visited, Return w)
                                   /\ decode w = Return (snd t)) props ts ->
  forall done,
    own_key_order (List.map fst (done ++ ts)%list) = true ->
    has_prop "__proto__" ts = false ->
    exists ws,
      serialize_children snd push_entry rec props visited = (visited, Return ws)
      /\ assign_all decode ws done = Return (done ++ ts)%list.
Proof.
  induction 1 as [|[k c] [k' t] props ts (Hk & w & Hw & Hback) _ IH];
    intros done Hord Hproto; simpl in *.
  - exists []. rewrite app_nil_r. split; reflexivity.
  - subst k'. apply orb_false_iff in Hproto as [Hkp Hproto].
    destruct (IH (done ++ [(k, t)])%list) as (ws & Hws & Hbacks);
      [rewrite <- app_assoc; exact Hord|exact Hproto|].
    exists ((k, w) :: ws). rewrite Hw, Hws. split; [reflexivity|].
    rewrite assign_all_cons, Hback. cbv beta iota.
    rewrite (assign_prop_last done k t ts Hord Hkp), Hbacks, <- app_assoc. reflexivity.
Qed.

Section Handles.
Context (P : Platform) (h : heap) (handleSerializer : value -> HandleOrValue)
        (table : list value).
Hypothesis table_ok : table_matches handleSerializer table.

Lemma serialize_with_handles (n : nat) :
  forall (x : value) (t : native) (visited : gset addr) (fuel : nat),
    handle_view P h handleSerializer n x = Some t ->
    (forall a, a ∈ visited ->
       resolved_view P h (handle_view P h handleSerializer (pred n)) (VRef a) = None) ->
    n <= fuel ->
    exists w,
      serializeValue P h handleSerializer fuel x visited = (visited, Return w)
      /\ parseSerializedValue P (Some table) w = Return t.
Proof.
  induction n as [|n IH]; intros x t visited fuel Hs Hvis Hfuel; [discriminate|].
  assert (Hvis' : forall a, a ∈ visited ->
            resolved_view P h (handle_view P h handleSerializer (pred n)) (VRef a) = None).
  { intros a Ha. specialize (Hvis a Ha). change (pred (S n)) with n in Hvis.
    destruct (resolved_view P h (handle_view P h handleSerializer (pred n)) (VRef a))
      as [u|] eqn:Hu; [|reflexivity].
    rewrite (resolved_view_mono P h (handle_view P h handleSerializer (pred n))
               (handle_view P h handleSerializer n) (VRef a) u) in Hvis;
      [discriminate| |exact Hu].
    intros c u' Hc. eapply handle_view_mono; [exact Hc|lia]. }
  destruct (handle_view P h handleSerializer n x) as [t'|] eqn:Hprev.
  { pose proof (handle_view_mono P h handleSerializer n (S n) x t' Hprev ltac:(lia)) as Hs'.
    rewrite Hs in Hs'. injection Hs' as <-.
    apply (IH x t visited fuel Hprev Hvis'). lia. }
  destruct fuel as [|fuel]; [lia|]. assert (Hfuel' : n <= fuel) by lia.
  cbn [handle_view] in Hs. cbn [serializeValue].
  destruct (handleSerializer x) as [k|y] eqn:Hx.
  { injection Hs as <-. exists (sv_of_h k). split; [reflexivity|].
    destruct (table_ok x k Hx) as [Hk Hentry].
    cbn [parseSerializedValue sv_of_h]. unfold handle_at.
    destruct (Z.ltb_spec k 0); [lia|]. rewrite Hentry. reflexivity. }
  destruct y as [| |b|z|s|id|a]; cbn [visited_has resolved_view] in *;
    try discriminate;
    try (injection Hs as <-; eexists; split; reflexivity).
  - injection Hs as <-. destruct z as [[|]|[|]| |sg m e]; eexists; split; reflexivity.
  - destruct (bool_decide (a ∈ visited)) eqn:Hin.
    { apply bool_decide_eq_true in Hin. specialize (Hvis a Hin).
      change (pred (S n)) with n in Hvis. cbn [resolved_view] in Hvis.
      rewrite Hvis in Hs. discriminate. }
    destruct (h !! a) as [[elems|props|[tv|]|source flags|cls nm msg st|]|] eqn:Ha;
      try discriminate.
    + apply fmap_Some in Hs as (ts & Hts & ->). apply mapM_Some in Hts.
      destruct (elements_round_trip (serializeValue P h handleSerializer fuel)
                  (parseSerializedValue P (Some table)) ({[a]} ∪ visited) elems ts)
        as (ws & Hws & Hback).
      { eapply Forall2_impl; [exact Hts|]. intros c u Hc. simpl in Hc.
        destruct n as [|n']; [discriminate|].
        apply (IH c u ({[a]} ∪ visited) fuel Hc); [|exact Hfuel'].
        intros b Hb. apply elem_of_union in Hb as [Hb|Hb]; [|apply Hvis', Hb].
        apply elem_of_singleton in Hb. subst b.
        cbn [handle_view] in Hprev. rewrite Hx in Hprev. exact Hprev. }
      rewrite Hws. eexists. split.
      * f_equal. apply bool_decide_eq_false in Hin. set_solver.
      * cbn [parseSerializedValue sv_of_a]. rewrite Hback. reflexivity.
    + destruct (own_key_order (List.map fst props) && negb (has_prop "__proto__" props))
        eqn:Hkeys; [|discriminate].
      apply andb_true_iff in Hkeys as [Hord Hproto]. apply negb_true_iff in Hproto.
      apply fmap_Some in Hs as (ts & Hts & ->). apply mapM_Some in Hts.
      assert (Hnames : List.map fst ts = List.map fst props).
      { clear -Hts. induction Hts as [|[k c] kt props ts Hc _ IHt]; [reflexivity|].
        simpl in *. apply fmap_Some in Hc as (u & _ & ->). simpl. rewrite IHt. reflexivity. }
      destruct (entries_round_trip (serializeValue P h handleSerializer fuel)
                  (parseSerializedValue P (Some table)) ({[a]} ∪ visited) props ts)
        with (done := @nil (string * native)) as (ws & Hws & Hback).
      { eapply Forall2_impl; [exact Hts|]. intros [k c] kt Hc. simpl in Hc.
        apply fmap_Some in Hc as (u & Hu & ->). split; [reflexivity|]. simpl.
        destruct n as [|n']; [discriminate|].
        apply (IH c u ({[a]} ∪ visited) fuel Hu); [|exact Hfuel'].
        intros b Hb. apply elem_of_union in Hb as [Hb|Hb]; [|apply Hvis', Hb].
        apply elem_of_singleton in Hb. subst b.
        cbn [handle_view] in Hprev. rewrite Hx in Hprev. exact Hprev. }
      { simpl. rewrite Hnames. exact Hord. }
      { destruct (has_prop "__proto__" ts) eqn:Hp; [|reflexivity].
        apply has_prop_In in Hp. rewrite Hnames in Hp. apply has_prop_In in Hp. congruence. }
      rewrite Hws. eexists. split.
      * f_equal. apply bool_decide_eq_false in Hin. set_solver.
      * cbn [parseSerializedValue sv_of_o]. rewrite Hback. reflexivity.
    + destruct (bool_decide (Date_parse P (Date_toISOString P tv) = Some tv)) eqn:Hd;
        [|discriminate].
      apply bool_decide_eq_true in Hd. injection Hs as <-.
      eexists. split; [reflexivity|].
      cbn [parseSerializedValue sv_of_d Date_toJSON new_Date]. rewrite Hd. reflexivity.
    + destruct (bool_decide (RegExp_construct P source flags = Some (source, flags))) eqn:Hr;
        [|discriminate].
      apply bool_decide_eq_true in Hr. injection Hs as <-.
      eexists. split; [reflexivity|].
      cbn [parseSerializedValue sv_of_r]. unfold new_RegExp. rewrite Hr. reflexivity.
Qed.
End Handles.

(** X12.  With any resolver, and a handle table that holds at every
    index the resolver answers the value it answered for, decoding what
    the encoder returns rebuilds the structure of the value: every
    handled value is the very object that was passed in, wherever it
    sits, and the acyclic plain data around the handles is rebuilt as
    in the round trip without handles; the visited set is left empty. *)
Theorem handles_round_trip (P : Platform) (h : heap)
    (handleSerializer : value -> HandleOrValue) (table : list value)
    (n fuel : nat) (x : value) (t : native) :
  table_matches handleSerializer table ->
  handle_view P h handleSerializer n x = Some t ->
  n <= fuel ->
  exists w,
    serializeValue P h handleSerializer fuel x ∅ = (∅, Return w)
    /\ parseSerializedValue P (Some table) w = Return t.
Proof.
  intros Htable Hs Hfuel.
  apply (serialize_with_handles P h handleSerializer table Htable n x t ∅ fuel Hs);
    [|exact Hfuel].
  intros a Ha. set_solver.
Qed.

Lemma handles_round_trip_witness :
  exists w,
    serializeValue node handled_pair handle_zero_for_five 3 (VRef 0) ∅ = (∅, Return w)
    /\ parseSerializedValue node (Some [VRef 5]) w
       = Return (NArray [NValue (VRef 5); NObject [("el", NValue (VRef 5))]]).
Proof.
  apply (handles_round_trip node handled_pair handle_zero_for_five [VRef 5] 3 3 (VRef 0)).
  - intros x k Hx. destruct x as [| |b|z|s|id|a]; try discriminate.
    do 6 (destruct a as [|a]; try discriminate).
    injection Hx as <-. split; [lia|reflexivity].
  - vm_compute. reflexivity.
  - lia.
Defined.

(** * Fulfilled responses and file payloads *)

Lemma find_app {A} (f : A -> bool) (l1 l2 : list A) :
  List.find f (l1 ++ l2)%list
  = match List.find f l1 with
    | Some x => Some x
    | None => List.find f l2
    end.
Proof.
  induction l1 as [|x l1 IH]; [reflexivity|]. simpl. destruct (f x); [reflexivity|exact IH].
Qed.

Lemma lowercase_headers_get_prop (H : Host) (h : heap) (k : string)
    (given : list (string * value)) :
  forall headers lowered,
    lowercase_headers H h given headers = Return lowered ->
    get_prop k lowered
    = if String.eqb k "__proto__" then get_prop k headers
      else match last_given H k given with
           | Some (_, v) =>
               match String_ (String_other H) h v with
               | Return s => Some s
               | _ => None
               end
           | None => get_prop k headers
           end.
Proof.
  unfold last_given.
  induction given as [|[header v] given IH]; intros headers lowered; cbn [lowercase_headers].
  - intros [= <-]. destruct (String.eqb k "__proto__"); reflexivity.
  - destruct (String_ (String_other H) h v) as [s|e|] eqn:Es; try discriminate.
    intros E. rewrite (IH _ _ E), get_prop_assign. simpl rev. rewrite find_app.
    destruct (String.eqb k "__proto__") eqn:Ek.
    + apply String.eqb_eq in Ek. subst k.
      destruct (String.eqb (toLowerCase H header) "__proto__"); reflexivity.
    + destruct (List.find (fun nv : string * value => String.eqb (toLowerCase H (fst nv)) k)
                 (rev given)) as [[name' v']|]; [reflexivity|].
      simpl. destruct (String.eqb (toLowerCase H header) k) eqn:E1.
      * apply String.eqb_eq in E1. subst k. rewrite Ek, Es. reflexivity.
      * destruct (String.eqb (toLowerCase H header) "__proto__"); reflexivity.
Qed.

Lemma lowercase_headers_Throw (H : Host) (h : heap) (given : list (string * value))
    (e : exn) :
  forall headers,
    lowercase_headers H h given headers = Throw e ->
    exists name v, In (name, v) given /\ String_other H h v = Throw e.
Proof.
  induction given as [|[header v] given IH]; intros headers; cbn [lowercase_headers];
    [discriminate|].
  destruct (String_ (String_other H) h v) as [s|e'|] eqn:Es.
  - intros E. destruct (IH _ E) as (name & v' & Hin & Hv).
    exists name, v'. split; [right; exact Hin|exact Hv].
  - intros [= <-]. exists header, v. split; [left; reflexivity|].
    destruct v as [| |[|]|n|s|id|a]; simpl in Es; try discriminate; exact Es.
  - discriminate.
Qed.

(** X13.  [normalizeFulfillParameters] never trips the assertion of
    [headersObjectToArray]: its promise is rejected only with the error
    of reading [params.path], or with an error thrown by [String] on
    the value of one of the given headers. *)
Theorem normalizeFulfillParameters_rejections (H : Host) (h : heap)
    (params : FulfillParams) (e : exn) :
  normalizeFulfillParameters H h params = Throw e ->
  (exists path, truthy_string (fp_path params) = Some path /\ readFile H path = Throw e)
  \/ (exists name v, In (name, v) (given_headers params) /\ String_other H h v = Throw e).
Proof.
  unfold normalizeFulfillParameters, given_headers.
  destruct (fulfill_body H params) as [[[body isBase64] len]|e'|] eqn:Eb.
  - destruct (lowercase_headers H h _ []) as [lowered|e'|] eqn:El.
    + rewrite headersObjectToArray_as_object. discriminate.
    + intros [= <-]. right. eapply lowercase_headers_Throw. exact El.
    + discriminate.
  - intros [= <-]. left. unfold fulfill_body in Eb.
    destruct (truthy_string (fp_path params)) as [path|].
    + exists path. split; [reflexivity|].
      destruct (readFile H path); try discriminate. congruence.
    + destruct (fp_body params) as [[body|buffer]|]; discriminate.
  - discriminate.
Qed.

Lemma normalizeFulfillParameters_rejections_witness :
  (exists path,
     truthy_string (Some "/tmp/missing") = Some path
     /\ readFile test_host path = Throw (Error "ENOENT"))
  \/ (exists (name : string) (v : value),
        In (name, v) [] /\ String_other test_host ∅ v = Throw (Error "ENOENT")).
Proof.
  apply (normalizeFulfillParameters_rejections test_host ∅
           {| fp_status := None; fp_headers := None; fp_contentType := None;
              fp_body := None; fp_path := Some "/tmp/missing" |}).
  vm_compute. reflexivity.
Defined.

(** X14.  In the response [normalizeFulfillParameters] returns, the
    header [content-type] is [params.contentType] when that is a
    non-empty string, else the MIME type of [params.path] (or
    'application/octet-stream') when a path is given, else the last
    given header whose lower-cased name is [content-type]; and the
    header [content-length] is the last given header of that lower-cased
    name if there is one, else the decimal length of the body when it is
    not 0, else absent. *)
Theorem normalizeFulfillParameters_headers (H : Host) (h : heap)
    (params : FulfillParams) (response : NormalizedFulfillResponse) :
  normalizeFulfillParameters H h params = Return response ->
  exists lowered body isBase64 length,
    lowercase_headers H h (given_headers params) [] = Return lowered
    /\ fulfill_body H params = Return (body, isBase64, length)
    /\ get_prop "content-type" (nf_headers response)
       = match truthy_string (fp_contentType params) with
         | Some contentType => Some contentType
         | None =>
             match truthy_string (fp_path params) with
             | Some path => Some (mime_type_or_default H path)
             | None => get_prop "content-type" lowered
             end
         end
    /\ get_prop "content-length" (nf_headers response)
       = match get_prop "content-length" lowered with
         | Some given => Some given
         | None => if Nat.eqb length 0 then None else Some (String_of_length length)
         end
    /\ forall k,
         get_prop k lowered
         = if String.eqb k "__proto__" then None
           else match last_given H k (given_headers params) with
                | Some (_, v) =>
                    match String_ (String_other H) h v with
                    | Return s => Some s
                    | _ => None
                    end
                | None => None
                end.
Proof.
  unfold normalizeFulfillParameters. fold (given_headers params).
  destruct (fulfill_body H params) as [[[body isBase64] len]|e'|]; try discriminate.
  destruct (lowercase_headers H h (given_headers params) []) as [lowered|e'|] eqn:El;
    try discriminate.
  rewrite headersObjectToArray_as_object. intros [= <-]. cbn [nf_headers].
  exists lowered, body, isBase64, len.
  split; [reflexivity|]. split; [reflexivity|]. split; [|split].
  - unfold with_content_length.
    assert (Hskip : forall l, get_prop "content-type"
                                (if negb (Nat.eqb len 0) && negb (has_prop "content-length" l)
                                 then assign_prop "content-length" (String_of_length len) l
                                 else l)
                              = get_prop "content-type" l).
    { intros l. destruct (negb (Nat.eqb len 0) && negb (has_prop "content-length" l));
        [|reflexivity].
      rewrite get_prop_assign. reflexivity. }
    rewrite Hskip. unfold with_content_type.
    destruct (truthy_string (fp_contentType params)) as [contentType|].
    + rewrite get_prop_assign. reflexivity.
    + destruct (truthy_string (fp_path params)) as [path|]; [|reflexivity].
      rewrite get_prop_assign. reflexivity.
  - assert (Hct : get_prop "content-length" (with_content_type H params lowered)
                  = get_prop "content-length" lowered
                  /\ has_prop "content-length" (with_content_type H params lowered)
                     = match get_prop "content-length" lowered with
                       | Some _ => true
                       | None => false
                       end).
    { assert (Hhas : forall l : list (string * string),
                has_prop "content-length" l
                = match get_prop "content-length" l with Some _ => true | None => false end).
      { intros l. unfold has_prop, get_prop.
        induction l as [|[k1 x1] l IHl]; [reflexivity|]. simpl.
        destruct (String.eqb k1 "content-length"); [reflexivity|exact IHl]. }
      rewrite Hhas. unfold with_content_type.
      destruct (truthy_string (fp_contentType params)) as [contentType|];
        [rewrite get_prop_assign; split; reflexivity|].
      destruct (truthy_string (fp_path params)) as [path|];
        [rewrite get_prop_assign; split; reflexivity|].
      split; reflexivity. }
    destruct Hct as [Hget Hhas]. unfold with_content_length. rewrite Hhas.
    destruct (Nat.eqb len 0); simpl.
    + rewrite Hget. destruct (get_prop "content-length" lowered); reflexivity.
    + destruct (get_prop "content-length" lowered) eqn:Eg; simpl.
      * rewrite Hget. reflexivity.
      * rewrite get_prop_assign. reflexivity.
  - intros k. rewrite (lowercase_headers_get_prop H h k _ [] lowered El).
    destruct (String.eqb k "__proto__"); [reflexivity|].
    destruct (last_given H k (given_headers params)) as [[name v]|]; reflexivity.
Qed.

Lemma normalizeFulfillParameters_headers_witness :
  exists lowered body isBase64 length,
    lowercase_headers test_host ∅
      [("Content-Type", VString "text/x"); ("X-A", VBool true);
       ("content-LENGTH", VString "7")] [] = Return lowered
    /\ fulfill_body test_host
         {| fp_status := Some pos_zero;
            fp_headers := Some [("Content-Type", VString "text/x"); ("X-A", VBool true);
                                ("content-LENGTH", VString "7")];
            fp_contentType := None; fp_body := Some (inl "hello");
            fp_path := Some "/tmp/a.png" |} = Return (body, isBase64, length)
    /\ get_prop "content-type"
         [("content-type", "image/png"); ("x-a", "true"); ("content-length", "7")]
       = Some (mime_type_or_default test_host "/tmp/a.png")
    /\ get_prop "content-length"
         [("content-type", "image/png"); ("x-a", "true"); ("content-length", "7")]
       = match get_prop "content-length" lowered with
         | Some given => Some given
         | None => if Nat.eqb length 0 then None else Some (String_of_length length)
         end
    /\ forall k,
         get_prop k lowered
         = if String.eqb k "__proto__" then None
           else match last_given test_host k
                        [("Content-Type", VString "text/x"); ("X-A", VBool true);
                         ("content-LENGTH", VString "7")] with
                | Some (_, v) =>
                    match String_ (String_other test_host) ∅ v with
                    | Return s => Some s
                    | _ => None
                    end
                | None => None
                end.
Proof.
  apply (normalizeFulfillParameters_headers test_host ∅
           {| fp_status := Some pos_zero;
              fp_headers := Some [("Content-Type", VString "text/x"); ("X-A", VBool true);
                                  ("content-LENGTH", VString "7")];
              fp_contentType := None; fp_body := Some (inl "hello");
              fp_path := Some "/tmp/a.png" |}
           {| nf_status := two_hundred;
              nf_headers := [("content-type", "image/png"); ("x-a", "true");
                             ("content-length", "7")];
              nf_body := "iVBORw=="; nf_isBase64 := true |}).
  vm_compute. reflexivity.
Defined.

Lemma normalize_items_payloads (H : Host) (payloads : list FilePayload) :
  normalize_items H (List.map inr payloads) = Return payloads.
Proof.
  induction payloads as [|file payloads IH]; [reflexivity|].
  cbn [List.map normalize_items]. rewrite IH. reflexivity.
Qed.

(** X15.  [normalizeFilePayloads] returns one payload for every item it
    is given, a single item counting as an array of one; and what it
    returns is normalised: given its own result it returns it unchanged
    and reads no file, whatever the file system holds by then. *)
Theorem normalizeFilePayloads_normal (H : Host)
    (files : (string + FilePayload) + list (string + FilePayload))
    (payloads : list FilePayload) :
  normalizeFilePayloads H files = Return payloads ->
  length payloads = length (match files with inl item => [item] | inr items => items end)
  /\ forall H' : Host, normalizeFilePayloads H' (inr (List.map inr payloads)) = Return payloads.
Proof.
  unfold normalizeFilePayloads. intros E. split.
  - revert payloads E.
    generalize (match files with inl item => [item] | inr items => items end) as ff.
    induction ff as [|item ff IH]; intros payloads; cbn [normalize_items].
    + intros [= <-]. reflexivity.
    + destruct (match item with inl _ => _ | inr _ => _ end) as [file|e|]; try discriminate.
      destruct (normalize_items H ff) as [rest|e|]; try discriminate.
      intros [= <-]. simpl. rewrite (IH rest eq_refl). reflexivity.
  - intros H'. apply normalize_items_payloads.
Qed.

Lemma normalizeFilePayloads_normal_witness :
  length [ {| fl_name := "a.png"; fl_mimeType := "image/png";
              fl_buffer := [Byte.x89; Byte.x50; Byte.x4e; Byte.x47] |} ]
  = length [ (inl "/tmp/a.png" : string + FilePayload) ]
  /\ forall H' : Host,
       normalizeFilePayloads H'
         (inr (List.map inr [ {| fl_name := "a.png"; fl_mimeType := "image/png";
                                 fl_buffer := [Byte.x89; Byte.x50; Byte.x4e; Byte.x47] |} ]))
       = Return [ {| fl_name := "a.png"; fl_mimeType := "image/png";
                     fl_buffer := [Byte.x89; Byte.x50; Byte.x4e; Byte.x47] |} ].
Proof.
  apply (normalizeFilePayloads_normal test_host (inl (inl "/tmp/a.png"))).
  vm_compute. reflexivity.
Defined.

(** * Thrown values across the error adapter *)




